(** * Two qubits with exchange interaction: the evolution pipeline

    A shallow embedding of the notebook [2-qubitEvolution.ipynb]: the
    two-spin Pauli operators, the exchange Hamiltonian, the propagation
    loop and the six expectation-value series.

    Numbers.  The notebook works on numpy [complex128] arrays.  Here a
    complex number is a pair of real numbers and the arithmetic is exact:
    rounding is idealised away, so an equation below holds exactly where
    the notebook reaches it up to rounding.  [scipy.linalg.expm] is the
    matrix exponential; it is embedded as the sum of the exponential
    series, which is shown to converge for every matrix.
    [scipy.constants.hbar] is a constant of the library: the pipeline
    takes it as the parameter [hbar]. *)

From Stdlib Require Import Reals List Arith Factorial Lia Lra Psatz.
Import ListNotations.
Open Scope R_scope.

(** ** Complex numbers *)

Record C : Type := mkC { re : R; im : R }.

Definition RtoC (x : R) : C := mkC x 0.
Definition C0 : C := RtoC 0.
Definition C1 : C := RtoC 1.
(** the literal [1j] *)
Definition Ci : C := mkC 0 1.

Definition Cadd (a b : C) : C := mkC (re a + re b) (im a + im b).
Definition Copp (a : C) : C := mkC (- re a) (- im a).
Definition Cmul (a b : C) : C :=
  mkC (re a * re b - im a * im b) (re a * im b + im a * re b).
Definition Cconj (a : C) : C := mkC (re a) (- im a).
Definition Cdiv (a b : C) : C :=
  let d := re b * re b + im b * im b in
  mkC ((re a * re b + im a * im b) / d) ((im a * re b - re a * im b) / d).
(** squared modulus *)
Definition Cnorm2 (a : C) : R := re a * re a + im a * im a.

(** ** Arrays

    One-dimensional arrays are lists, two-dimensional arrays are lists of
    rows.  Every array of the notebook has a fixed shape (2, 4, 2x2 or
    4x4), so the shape errors of numpy cannot occur. *)

Definition vec : Type := list C.
Definition matrix : Type := list (list C).

Definition nrows (A : matrix) : nat := length A.
Definition ncols (A : matrix) : nat := length (hd [] A).

(** [A[i][j]] *)
Definition mget (A : matrix) (i j : nat) : C := nth j (nth i A []) C0.

Fixpoint zipWith {X Y Z : Type} (f : X -> Y -> Z) (u : list X) (v : list Y)
  : list Z :=
  match u, v with
  | x :: u', y :: v' => f x y :: zipWith f u' v'
  | _, _ => []
  end.

(** [np.kron] on two-dimensional arrays: block (i,j) of the result is
    [A[i][j] * B]. *)
Definition kron (A B : matrix) : matrix :=
  flat_map (fun ra =>
    map (fun rb => flat_map (fun a => map (Cmul a) rb) ra) B) A.

(** [np.kron] on one-dimensional arrays. *)
Definition kron1 (a b : vec) : vec :=
  flat_map (fun x => map (Cmul x) b) a.

(** [u @ v] on one-dimensional arrays: the sum of the products, without
    conjugation. *)
Fixpoint dot (u v : vec) : C :=
  match u, v with
  | x :: u', y :: v' => Cadd (Cmul x y) (dot u' v')
  | _, _ => C0
  end.

Definition col (j : nat) (B : matrix) : vec :=
  map (fun r => nth j r C0) B.

(** [A @ B] on two-dimensional arrays. *)
Definition matmul (A B : matrix) : matrix :=
  map (fun r => map (fun j => dot r (col j B)) (seq 0 (ncols B))) A.

(** [A @ v], two-dimensional by one-dimensional. *)
Definition matvec (A : matrix) (v : vec) : vec :=
  map (fun r => dot r v) A.

(** [v @ A], one-dimensional by two-dimensional. *)
Definition vecmat (v : vec) (A : matrix) : vec :=
  map (fun j => dot v (col j A)) (seq 0 (ncols A)).

(** [A + B], elementwise. *)
Definition madd (A B : matrix) : matrix := zipWith (zipWith Cadd) A B.

(** [c * A], [A * c] and [A / c] with a scalar [c], elementwise. *)
Definition smul (c : C) (A : matrix) : matrix := map (map (Cmul c)) A.
Definition muls (A : matrix) (c : C) : matrix :=
  map (map (fun x => Cmul x c)) A.
Definition divs (A : matrix) (c : C) : matrix :=
  map (map (fun x => Cdiv x c)) A.
Definition vdivs (v : vec) (c : C) : vec := map (fun x => Cdiv x c) v.

(** [p.conj()] and [A.conj().T] *)
Definition vconj (v : vec) : vec := map Cconj v.
Definition transpose (A : matrix) : matrix :=
  map (fun j => col j A) (seq 0 (ncols A)).
Definition dagger (A : matrix) : matrix := transpose (map (map Cconj) A).

(** [np.linspace(start, stop, num)]: [num] samples, both ends included. *)
Definition linspace (start stop : R) (num : nat) : list R :=
  let div := (num - 1)%nat in
  let step := (stop - start) / INR div in
  map (fun i => if andb (1 <? num)%nat (i =? div)%nat then stop
                else INR i * step + start)
      (seq 0 num).

(** ** The two-spin Pauli matrices *)

Definition identity : matrix := [[C1; C0]; [C0; C1]].

Definition pauliZ : matrix := [[C1; C0]; [C0; Copp C1]].
Definition pauliX : matrix := [[C0; C1]; [C1; C0]].
Definition pauliY : matrix := [[C0; Copp Ci]; [Ci; C0]].

Definition sigma1Z : matrix := kron pauliZ identity.
Definition sigma1X : matrix := kron pauliX identity.
Definition sigma1Y : matrix := kron pauliY identity.

Definition sigma2Z : matrix := kron identity pauliZ.
Definition sigma2X : matrix := kron identity pauliX.
Definition sigma2Y : matrix := kron identity pauliY.

(** ** The Hamiltonian *)

Definition J : R := 2 * PI.

(** [sigma1X@sigma2X + sigma1Y@sigma2Y + sigma1Z@sigma2Z] *)
Definition exchange : matrix :=
  madd (madd (matmul sigma1X sigma2X) (matmul sigma1Y sigma2Y))
       (matmul sigma1Z sigma2Z).

(** [H = J * hbar/4 * (...)] *)
Definition H (hbar : R) : matrix :=
  smul (RtoC (J * hbar / 4)) exchange.

(** ** The initial state *)

Definition psi1 : vec := [C1; C0].
Definition psi2 : vec := vdivs [C1; C1] (RtoC (sqrt 2)).
Definition psi0 : vec := kron1 psi1 psi2.

Definition time : list R := linspace 0 0.5 101.

(** ** The matrix exponential

    [expm A] is the sum of the series of the [A^k / k!].  The powers are
    bounded entry by entry by a geometric sequence, so every entry of the
    series converges absolutely, by comparison with the series of the
    real exponential. *)

Definition meye (n : nat) : matrix :=
  map (fun i => map (fun j => if Nat.eqb i j then C1 else C0) (seq 0 n))
      (seq 0 n).

Fixpoint mpow (A : matrix) (k : nat) : matrix :=
  match k with
  | O => meye (nrows A)
  | S k' => matmul A (mpow A k')
  end.

(** entry (i,j) of [A^k / k!] *)
Definition exp_term (A : matrix) (i j k : nat) : C :=
  Cmul (RtoC (/ INR (fact k))) (mget (mpow A k) i j).

(** a bound on the real and imaginary parts of the entries *)
Definition cbounded (b : R) (c : C) : Prop :=
  Rabs (re c) <= b /\ Rabs (im c) <= b.
Definition mbounded (b : R) (A : matrix) : Prop :=
  Forall (Forall (cbounded b)) A.

Definition vsize (v : vec) : R :=
  fold_right (fun c s => Rabs (re c) + Rabs (im c) + s) 0 v.
Definition msize (A : matrix) : R :=
  fold_right (fun r s => vsize r + s) 0 A.

Lemma vsize_nonneg v : 0 <= vsize v.
Proof.
  induction v as [|c v IH]; simpl; [lra|].
  pose proof (Rabs_pos (re c)); pose proof (Rabs_pos (im c)); lra.
Qed.

Lemma msize_nonneg A : 0 <= msize A.
Proof.
  induction A as [|r A IH]; simpl; [lra|].
  pose proof (vsize_nonneg r); lra.
Qed.

Lemma cbounded_mono b b' c : b <= b' -> cbounded b c -> cbounded b' c.
Proof. unfold cbounded; intros Hb [Hr Hi]; split; lra. Qed.

Lemma vsize_bounds v : Forall (cbounded (vsize v)) v.
Proof.
  induction v as [|c v IH]; simpl; constructor.
  - pose proof (vsize_nonneg v).
    pose proof (Rabs_pos (re c)); pose proof (Rabs_pos (im c)).
    split; lra.
  - eapply Forall_impl; [|exact IH].
    intros a; apply cbounded_mono.
    pose proof (Rabs_pos (re c)); pose proof (Rabs_pos (im c)); lra.
Qed.

Lemma msize_bounds A : mbounded (msize A) A.
Proof.
  induction A as [|r A IH]; simpl; constructor.
  - eapply Forall_impl; [|apply vsize_bounds].
    intros a; apply cbounded_mono. pose proof (msize_nonneg A); lra.
  - eapply Forall_impl; [|exact IH].
    intros v Hv. eapply Forall_impl; [|exact Hv].
    intros a; apply cbounded_mono. pose proof (vsize_nonneg r); lra.
Qed.

Lemma cbounded_C0 b : 0 <= b -> cbounded b C0.
Proof. intros Hb; split; simpl; rewrite Rabs_R0; exact Hb. Qed.

Lemma cbounded_mul a b x y :
  cbounded a x -> cbounded b y -> cbounded (2 * a * b) (Cmul x y).
Proof.
  intros [Hxr Hxi] [Hyr Hyi].
  pose proof (Rabs_pos (re x)); pose proof (Rabs_pos (im x)).
  pose proof (Rabs_pos (re y)); pose proof (Rabs_pos (im y)).
  assert (Hm : forall p q, Rabs p <= a -> Rabs q <= b ->
                           Rabs (p * q) <= a * b).
  { intros p q Hp Hq. rewrite Rabs_mult.
    apply Rmult_le_compat; auto using Rabs_pos. }
  split; simpl.
  - unfold Rminus. eapply Rle_trans; [apply Rabs_triang|].
    rewrite Rabs_Ropp.
    pose proof (Hm _ _ Hxr Hyr); pose proof (Hm _ _ Hxi Hyi); lra.
  - eapply Rle_trans; [apply Rabs_triang|].
    pose proof (Hm _ _ Hxr Hyi); pose proof (Hm _ _ Hxi Hyr); lra.
Qed.

Lemma cbounded_add a b x y :
  cbounded a x -> cbounded b y -> cbounded (a + b) (Cadd x y).
Proof.
  intros [Hxr Hxi] [Hyr Hyi]; split; simpl;
    (eapply Rle_trans; [apply Rabs_triang|]); lra.
Qed.

Lemma dot_bounded a b u v :
  0 <= a -> 0 <= b ->
  Forall (cbounded a) u -> Forall (cbounded b) v ->
  cbounded (INR (length v) * (2 * a * b)) (dot u v).
Proof.
  intros Ha Hb Hu; revert v.
  induction Hu as [|x u Hx Hu IH]; intros v Hv.
  - simpl. apply cbounded_C0.
    apply Rmult_le_pos; [apply pos_INR | nra].
  - destruct Hv as [|y v Hy Hv].
    + simpl. apply cbounded_C0. lra.
    + cbn [dot length]. rewrite S_INR.
      eapply cbounded_mono;
        [|apply cbounded_add; [apply (cbounded_mul _ _ _ _ Hx Hy)|apply IH, Hv]].
      lra.
Qed.

Lemma nth_bounded b r j : 0 <= b -> Forall (cbounded b) r ->
  cbounded b (nth j r C0).
Proof.
  intros Hb Hr; revert j.
  induction Hr as [|x r Hx Hr IH]; intros [|j]; simpl;
    auto using cbounded_C0.
Qed.

Lemma col_bounded b B j : 0 <= b -> mbounded b B ->
  Forall (cbounded b) (col j B).
Proof.
  intros Hb HB. unfold col. apply Forall_map.
  eapply Forall_impl; [|exact HB].
  intros r Hr; apply nth_bounded; assumption.
Qed.

Lemma mget_bounded b A i j : 0 <= b -> mbounded b A ->
  cbounded b (mget A i j).
Proof.
  intros Hb HA. unfold mget. apply nth_bounded; [exact Hb|].
  revert i. induction HA as [|r A Hr HA IH]; intros [|i]; simpl; auto.
Qed.

Lemma matmul_bounded a b A B :
  0 <= a -> 0 <= b -> mbounded a A -> mbounded b B ->
  mbounded (INR (nrows B) * (2 * a * b)) (matmul A B).
Proof.
  intros Ha Hb HA HB. unfold matmul, mbounded. apply Forall_map.
  eapply Forall_impl; [|exact HA].
  intros r Hr. apply Forall_map, Forall_forall. intros j _.
  replace (nrows B) with (length (col j B))
    by (unfold col, nrows; apply length_map).
  apply dot_bounded; auto using col_bounded.
Qed.

Lemma nrows_matmul A B : nrows (matmul A B) = nrows A.
Proof. unfold nrows, matmul. apply length_map. Qed.

Lemma nrows_mpow A k : nrows (mpow A k) = nrows A.
Proof.
  destruct k; simpl.
  - unfold nrows, meye. rewrite length_map, length_seq. reflexivity.
  - apply nrows_matmul.
Qed.

Lemma meye_bounded n : mbounded 1 (meye n).
Proof.
  unfold meye, mbounded. apply Forall_map, Forall_forall. intros i _.
  apply Forall_map, Forall_forall. intros j _.
  destruct (Nat.eqb i j); split; simpl;
    rewrite ?Rabs_R0, ?Rabs_R1; lra.
Qed.

(** the geometric bound on the powers *)
Definition growth (A : matrix) : R := INR (nrows A) * (2 * msize A).

Lemma growth_nonneg A : 0 <= growth A.
Proof.
  unfold growth. apply Rmult_le_pos; [apply pos_INR|].
  pose proof (msize_nonneg A); lra.
Qed.

Lemma mpow_bounded A k : mbounded (growth A ^ k) (mpow A k).
Proof.
  induction k as [|k IH].
  - simpl. apply meye_bounded.
  - cbn [mpow pow].
    pose proof (matmul_bounded (msize A) (growth A ^ k) A (mpow A k)
                  (msize_nonneg A) (pow_le _ _ (growth_nonneg A))
                  (msize_bounds A) IH) as Hm.
    rewrite nrows_mpow in Hm.
    replace (growth A * growth A ^ k)
      with (INR (nrows A) * (2 * msize A * growth A ^ k))
      by (unfold growth; ring).
    exact Hm.
Qed.

Lemma exp_term_bounded A i j k :
  cbounded (/ INR (fact k) * growth A ^ k) (exp_term A i j k).
Proof.
  pose proof (mget_bounded _ (mpow A k) i j
                (pow_le _ k (growth_nonneg A)) (mpow_bounded A k)) as [Hr Hi].
  assert (Hf : 0 < / INR (fact k))
    by (apply Rinv_0_lt_compat, INR_fact_lt_0).
  unfold exp_term; split; simpl.
  - replace (/ INR (fact k) * re (mget (mpow A k) i j)
             - 0 * im (mget (mpow A k) i j))
      with (/ INR (fact k) * re (mget (mpow A k) i j)) by ring.
    rewrite Rabs_mult, (Rabs_pos_eq (/ INR (fact k))) by lra.
    apply Rmult_le_compat_l; lra.
  - replace (/ INR (fact k) * im (mget (mpow A k) i j)
             + 0 * re (mget (mpow A k) i j))
      with (/ INR (fact k) * im (mget (mpow A k) i j)) by ring.
    rewrite Rabs_mult, (Rabs_pos_eq (/ INR (fact k))) by lra.
    apply Rmult_le_compat_l; lra.
Qed.

(** a series dominated by the exponential series converges *)
Lemma dominated_cv (a : nat -> R) (x : R) :
  (forall k, Rabs (a k) <= / INR (fact k) * x ^ k) ->
  { l : R | Un_cv (fun N => sum_f_R0 a N) l }.
Proof.
  intros Hdom. apply cv_cauchy_2, cauchy_abs, cv_cauchy_1.
  apply (Rseries_CV_comp (fun k => Rabs (a k))
           (fun k => / INR (fact k) * x ^ k)).
  - intros n; split; [apply Rabs_pos | apply Hdom].
  - exact (exist_exp x).
Qed.

Lemma exp_series_re_cv A i j :
  { l : R | Un_cv (fun N => sum_f_R0 (fun k => re (exp_term A i j k)) N) l }.
Proof.
  apply (dominated_cv _ (growth A)).
  intros k. apply (exp_term_bounded A i j k).
Qed.

Lemma exp_series_im_cv A i j :
  { l : R | Un_cv (fun N => sum_f_R0 (fun k => im (exp_term A i j k)) N) l }.
Proof.
  apply (dominated_cv _ (growth A)).
  intros k. apply (exp_term_bounded A i j k).
Qed.

(** [scipy.linalg.expm] *)
Definition expm (A : matrix) : matrix :=
  map (fun i =>
    map (fun j => mkC (proj1_sig (exp_series_re_cv A i j))
                      (proj1_sig (exp_series_im_cv A i j)))
        (seq 0 (nrows A)))
      (seq 0 (nrows A)).

(** ** The evolution *)

(** the argument of [expm]: [-1j*H*t/hbar] *)
Definition generator (hbar t : R) : matrix :=
  divs (muls (smul (Copp Ci) (H hbar)) (RtoC t)) (RtoC hbar).

(** one turn of the loop body: [psiT.append(expm(-1j*H*t/hbar) @ psi0)] *)
Definition evolve_step (hbar : R) (acc : list vec) (t : R) : list vec :=
  acc ++ [matvec (expm (generator hbar t)) psi0].

(** [psiT = []; for t in time: ...] *)
Definition psiT (hbar : R) : list vec :=
  fold_left (evolve_step hbar) time [].

(** ** The expectation values *)

(** [(p.conj().T @ sigma @ p).real]; [.T] leaves a one-dimensional array
    as it is, and [@] associates to the left. *)
Definition expect (sigma : matrix) (p : vec) : R :=
  re (dot (vecmat (vconj p) sigma) p).

Definition x1 (hbar : R) : list R := map (expect sigma1X) (psiT hbar).
Definition y1 (hbar : R) : list R := map (expect sigma1Y) (psiT hbar).
Definition z1 (hbar : R) : list R := map (expect sigma1Z) (psiT hbar).

Definition x2 (hbar : R) : list R := map (expect sigma2X) (psiT hbar).
Definition y2 (hbar : R) : list R := map (expect sigma2Y) (psiT hbar).
Definition z2 (hbar : R) : list R := map (expect sigma2Z) (psiT hbar).

(** ** The plot

    [qutip.Bloch] is a drawing object of the library.  What [qubitPlots]
    does to it is kept as the list of the calls it makes, in order. *)

Inductive bloch_call : Type :=
| AddPoints (points : list (list R))
| Render
| SetSizeInches (size : list R)
| ShowBloch.

(** [zip(x, y, z)]: it stops with the shortest of the three *)
Fixpoint zip3 {X : Type} (x y z : list X) : list (X * X * X) :=
  match x, y, z with
  | a :: x', b :: y', c :: z' => (a, b, c) :: zip3 x' y' z'
  | _, _, _ => []
  end.

(** one turn of the loop: [bsPlot.add_points([xi, yi, zi])] *)
Definition plot_step (calls : list bloch_call)
  (p : list R * list R * list R) : list bloch_call :=
  let '(xi, yi, zi) := p in calls ++ [AddPoints [xi; yi; zi]].

(** [def qubitPlots(time,x,y,z)] *)
Definition qubitPlots (time : list R) (x y z : list (list R))
  : list bloch_call :=
  fold_left plot_step (zip3 x y z) []
    ++ [Render; SetSizeInches [25; 5]; ShowBloch].

(** the last cell: [qubitPlots(time,[x1,x2],[y1,y2],[z1,z2])] *)
Definition plot_cell (hbar : R) : list bloch_call :=
  qubitPlots time [x1 hbar; x2 hbar] [y1 hbar; y2 hbar] [z1 hbar; z2 hbar].

(** ** Failure

    The notebook declares no error and holds no [raise]; the three names
    are the ones the specification uses. *)

Inductive error : Type :=
| DimensionMismatch
| InvalidParameter
| NumericalInstability.

Definition result (X : Type) : Type := (error + X)%type.

Definition ret {X : Type} (x : X) : result X := inr x.

Definition bind {X Y : Type} (m : result X) (f : X -> result Y) : result Y :=
  match m with
  | inl e => inl e
  | inr x => f x
  end.

(** the propagation cell run statement by statement: the loop body is a
    single [append], and no statement tests [hbar] *)
Definition propagate (hbar : R) : result (list vec) :=
  fold_left (fun acc t => bind acc (fun l => ret (evolve_step hbar l t)))
            time (ret []).

(** [scipy.constants.hbar]: the library computes it as [h / (2*pi)] from
    the CODATA 2018 value of [h] *)
Definition hbar_CODATA : R := 6.62607015e-34 / (2 * PI).

(** ** Notions of the specification *)

(** the squared norm and the norm of a state *)
Definition norm2 (v : vec) : R := fold_right (fun c s => Cnorm2 c + s) 0 v.
Definition norm (v : vec) : R := sqrt (norm2 v).

(** [E] has the shape of [A] and its entries are the sums of the series
    of the entries of the [A^k / k!]. *)
Definition is_expm (A E : matrix) : Prop :=
  nrows E = nrows A /\
  Forall (fun r => length r = nrows A) E /\
  forall i j, (i < nrows A)%nat -> (j < nrows A)%nat ->
    Un_cv (fun N => sum_f_R0 (fun k => re (exp_term A i j k)) N)
          (re (mget E i j)) /\
    Un_cv (fun N => sum_f_R0 (fun k => im (exp_term A i j k)) N)
          (im (mget E i j)).

Fixpoint Csum (f : nat -> C) (n : nat) : C :=
  match n with
  | O => C0
  | S n' => Cadd (Csum f n') (f n')
  end.

(** the expectation value as a double sum:
    the sum over i and j of [conj(p[i]) * sigma[i][j] * p[j]] *)
Definition braket (sigma : matrix) (p : vec) : C :=
  Csum (fun i =>
    Csum (fun j =>
      Cmul (Cmul (Cconj (nth i p C0)) (mget sigma i j)) (nth j p C0))
      (length p))
    (length p).

(** entry (i,j) of the matrix product as the textbook sum over [k] *)
Definition mprod_entry (A B : matrix) (i j : nat) : C :=
  Csum (fun k => Cmul (mget A i k) (mget B k j)) (nrows B).

Definition tabulate (n : nat) (f : nat -> nat -> C) : matrix :=
  map (fun i => map (fun j => f i j) (seq 0 n)) (seq 0 n).

(** component [i] of a matrix applied to a vector, as the textbook sum
    over [k] of [A[i][k] * v[k]] *)
Definition mvprod_entry (A : matrix) (v : vec) (i : nat) : C :=
  Csum (fun k => Cmul (mget A i k) (nth k v C0)) (length v).

(** the state [exp(-i H t / hbar) psi0] written out: with [th = pi t/2]
    it is [1/sqrt 2] times
    [(e^(-i th), (e^(-i th) + e^(3 i th))/2, (e^(-i th) - e^(3 i th))/2, 0)] *)
Definition psi_closed (t : R) : vec :=
  let th := PI * t / 2 in
  [mkC (cos th / sqrt 2) (- sin th / sqrt 2);
   mkC ((cos th + cos (3 * th)) / (2 * sqrt 2))
       ((sin (3 * th) - sin th) / (2 * sqrt 2));
   mkC ((cos th - cos (3 * th)) / (2 * sqrt 2))
       ((- sin th - sin (3 * th)) / (2 * sqrt 2));
   mkC 0 0].

Definition paulis : list matrix :=
  [sigma1X; sigma1Y; sigma1Z; sigma2X; sigma2Y; sigma2Z].

(** the generator without [hbar]: [-1j*(J/4)*(...)*t] *)
Definition generator_free (t : R) : matrix :=
  muls (smul (Cmul (Copp Ci) (RtoC (J / 4))) exchange) (RtoC t).

(** ** Closed forms

    The exchange operator acts as 1 on the three symmetric states and as
    -3 on the antisymmetric one; so does every power of it, and the
    propagator is a phase on each of the two subspaces. *)

(** the exchange operator, entry by entry *)
Definition exchange_entries : matrix :=
  [[RtoC 1; RtoC 0; RtoC 0; RtoC 0];
   [RtoC 0; RtoC (-1); RtoC 2; RtoC 0];
   [RtoC 0; RtoC 2; RtoC (-1); RtoC 0];
   [RtoC 0; RtoC 0; RtoC 0; RtoC 1]].

Fixpoint Cpow (c : C) (k : nat) : C :=
  match k with
  | O => C1
  | S k' => Cmul c (Cpow c k')
  end.

(** [cis x] is [exp(1j*x)] *)
Definition cis (x : R) : C := mkC (cos x) (sin x).

(** the terms of the series of [exp(1j*x)] *)
Definition cis_term (x : R) (k : nat) : C :=
  Cmul (RtoC (/ INR (fact k))) (Cpow (mkC 0 x) k).

Definition Chalf (c : C) : C := mkC (re c / 2) (im c / 2).

(** the matrix that acts as [a] on the symmetric states and as [b] on
    the antisymmetric state *)
Definition spectral (a b : C) : matrix :=
  [[a; C0; C0; C0];
   [C0; Chalf (Cadd a b); Chalf (Cadd a (Copp b)); C0];
   [C0; Chalf (Cadd a (Copp b)); Chalf (Cadd a b); C0];
   [C0; C0; C0; a]].

(** the coefficients of [a] and of [b] in entry (i,j) *)
Definition tcoef (i j : nat) : R :=
  match i, j with
  | 0%nat, 0%nat | 3%nat, 3%nat => 1
  | 1%nat, 1%nat | 1%nat, 2%nat | 2%nat, 1%nat | 2%nat, 2%nat => / 2
  | _, _ => 0
  end.

Definition scoef (i j : nat) : R :=
  match i, j with
  | 1%nat, 1%nat | 2%nat, 2%nat => / 2
  | 1%nat, 2%nat | 2%nat, 1%nat => - / 2
  | _, _ => 0
  end.

(** the phase [J*t/4] *)
Definition phase (t : R) : R := J * t / 4.

(** the state at time [t] in closed form *)
Definition state_at (t : R) : vec :=
  matvec (spectral (cis (- phase t)) (cis (3 * phase t))) psi0.

(** ** The Bloch sphere *)

(** the squared length of a Bloch vector *)
Definition bloch_norm2 (x y z : R) : R := x * x + y * y + z * z.

(** a set of points as [add_points] takes it: three rows of [n] values,
    every point on or inside the unit sphere *)
Definition in_unit_ball (n : nat) (pts : list (list R)) : Prop :=
  exists xs ys zs,
    pts = [xs; ys; zs] /\
    length xs = n /\ length ys = n /\ length zs = n /\
    forall i, (i < n)%nat ->
      bloch_norm2 (nth i xs 0) (nth i ys 0) (nth i zs 0) <= 1.

(** the call that one triple of [zip] gives rise to *)
Definition add_of (p : list R * list R * list R) : bloch_call :=
  let '(xi, yi, zi) := p in AddPoints [xi; yi; zi].

(** * Proofs *)

(** ** Computing with arrays of fixed shape *)

Lemma C_eq (a b : C) : re a = re b -> im a = im b -> a = b.
Proof. destruct a, b; simpl; intros; subst; reflexivity. Qed.

(** unfold the array operations, keep the arithmetic of the entries *)
Ltac arrays :=
  cbv [kron kron1 dot col matmul matvec vecmat madd smul muls divs vdivs
       vconj transpose dagger zipWith flat_map map app seq nth hd length
       ncols nrows mget meye Nat.eqb
       identity pauliX pauliY pauliZ
       sigma1X sigma1Y sigma1Z sigma2X sigma2Y sigma2Z
       exchange psi1 psi2 psi0
       Csum braket mprod_entry tabulate expect norm2 fold_right].

(** split an equation between arrays into equations between entries *)
Ltac entries :=
  repeat match goal with
         | |- _ :: _ = _ :: _ => apply f_equal2
         | |- @nil _ = @nil _ => reflexivity
         end.

(** real and imaginary parts of an arithmetic expression *)
Ltac cparts :=
  cbn [re im Cadd Copp Cmul Cconj Cdiv RtoC C0 C1 Ci Chalf].

Ltac square_hints u v :=
  pose proof (Rle_0_sqr (u - v)); pose proof (Rle_0_sqr (u + v)).

Lemma nth_map_seq {X : Type} (f : nat -> X) (n i : nat) (d : X) :
  (i < n)%nat -> nth i (map f (seq 0 n)) d = f i.
Proof.
  intros Hi. rewrite (nth_indep _ d (f 0%nat))
    by (rewrite length_map, length_seq; exact Hi).
  rewrite map_nth, seq_nth by exact Hi. reflexivity.
Qed.

Lemma nth_map_lt {X Y : Type} (f : X -> Y) (l : list X) i (d : Y) (d' : X) :
  (i < length l)%nat -> nth i (map f l) d = f (nth i l d').
Proof.
  intros Hi. rewrite (nth_indep _ d (f d')) by (rewrite length_map; exact Hi).
  apply map_nth.
Qed.

Lemma matrix_ext (n : nat) (E E' : matrix) :
  nrows E = n -> nrows E' = n ->
  Forall (fun r => length r = n) E -> Forall (fun r => length r = n) E' ->
  (forall i j, (i < n)%nat -> (j < n)%nat -> mget E i j = mget E' i j) ->
  E = E'.
Proof.
  unfold nrows, mget. intros HE HE' HF HF' Hij.
  apply (nth_ext _ _ [] []); [congruence|].
  intros i Hi. rewrite HE in Hi.
  assert (Hl : length (nth i E []) = n).
  { rewrite Forall_forall in HF. apply HF, nth_In. lia. }
  assert (Hl' : length (nth i E' []) = n).
  { rewrite Forall_forall in HF'. apply HF', nth_In. lia. }
  apply (nth_ext _ _ C0 C0); [congruence|].
  intros j Hj. apply Hij; lia.
Qed.

Lemma exchange_explicit : exchange = exchange_entries.
Proof.
  arrays. unfold exchange_entries. entries; apply C_eq; cparts; ring.
Qed.

(** the six Pauli operators, entry by entry *)
Lemma paulis_explicit :
  sigma1X = [[RtoC 0; RtoC 0; RtoC 1; RtoC 0];
             [RtoC 0; RtoC 0; RtoC 0; RtoC 1];
             [RtoC 1; RtoC 0; RtoC 0; RtoC 0];
             [RtoC 0; RtoC 1; RtoC 0; RtoC 0]] /\
  sigma1Y = [[RtoC 0; RtoC 0; mkC 0 (-1); RtoC 0];
             [RtoC 0; RtoC 0; RtoC 0; mkC 0 (-1)];
             [mkC 0 1; RtoC 0; RtoC 0; RtoC 0];
             [RtoC 0; mkC 0 1; RtoC 0; RtoC 0]] /\
  sigma1Z = [[RtoC 1; RtoC 0; RtoC 0; RtoC 0];
             [RtoC 0; RtoC 1; RtoC 0; RtoC 0];
             [RtoC 0; RtoC 0; RtoC (-1); RtoC 0];
             [RtoC 0; RtoC 0; RtoC 0; RtoC (-1)]] /\
  sigma2X = [[RtoC 0; RtoC 1; RtoC 0; RtoC 0];
             [RtoC 1; RtoC 0; RtoC 0; RtoC 0];
             [RtoC 0; RtoC 0; RtoC 0; RtoC 1];
             [RtoC 0; RtoC 0; RtoC 1; RtoC 0]] /\
  sigma2Y = [[RtoC 0; mkC 0 (-1); RtoC 0; RtoC 0];
             [mkC 0 1; RtoC 0; RtoC 0; RtoC 0];
             [RtoC 0; RtoC 0; RtoC 0; mkC 0 (-1)];
             [RtoC 0; RtoC 0; mkC 0 1; RtoC 0]] /\
  sigma2Z = [[RtoC 1; RtoC 0; RtoC 0; RtoC 0];
             [RtoC 0; RtoC (-1); RtoC 0; RtoC 0];
             [RtoC 0; RtoC 0; RtoC 1; RtoC 0];
             [RtoC 0; RtoC 0; RtoC 0; RtoC (-1)]].
Proof.
  repeat split; arrays; entries; apply C_eq; cparts; ring.
Qed.

Lemma sqrt2_nonzero : sqrt 2 <> 0.
Proof. apply Rgt_not_eq, sqrt_lt_R0; lra. Qed.

Lemma inv_sqrt2_sqr : / sqrt 2 * / sqrt 2 = / 2.
Proof. rewrite <- Rinv_mult, sqrt_sqrt by lra. reflexivity. Qed.

Lemma psi0_explicit : psi0 = [RtoC (/ sqrt 2); RtoC (/ sqrt 2); C0; C0].
Proof.
  arrays. entries; apply C_eq; cparts; try ring; field; apply sqrt2_nonzero.
Qed.

(** ** The matrix exponential is the sum of its series *)

Lemma expm_is_expm A : is_expm A (expm A).
Proof.
  unfold is_expm, expm. repeat split.
  - unfold nrows at 1. rewrite length_map, length_seq. reflexivity.
  - apply Forall_map, Forall_forall. intros i _.
    rewrite length_map, length_seq. reflexivity.
  - unfold mget. rewrite (nth_map_seq _ _ i) by assumption.
    rewrite (nth_map_seq _ _ j) by assumption.
    cbn [re]. apply (proj2_sig (exp_series_re_cv A i j)).
  - unfold mget. rewrite (nth_map_seq _ _ i) by assumption.
    rewrite (nth_map_seq _ _ j) by assumption.
    cbn [im]. apply (proj2_sig (exp_series_im_cv A i j)).
Qed.

Lemma is_expm_unique A E E' : is_expm A E -> is_expm A E' -> E = E'.
Proof.
  intros (Hn & Hr & Hc) (Hn' & Hr' & Hc').
  apply (matrix_ext (nrows A)); try assumption.
  intros i j Hi Hj.
  destruct (Hc i j Hi Hj) as [H1 H2], (Hc' i j Hi Hj) as [H1' H2'].
  apply C_eq; eapply UL_sequence; eassumption.
Qed.

Lemma expm_unique A E : is_expm A E -> expm A = E.
Proof. intros HE. apply (is_expm_unique A); [apply expm_is_expm | exact HE]. Qed.

(** ** The exponential series of an imaginary number *)

Lemma Cpow_imag x m :
  Cpow (mkC 0 x) (2 * m) = mkC ((-1) ^ m * x ^ (2 * m)) 0 /\
  Cpow (mkC 0 x) (S (2 * m)) = mkC 0 ((-1) ^ m * x ^ S (2 * m)).
Proof.
  induction m as [|m [IHe IHo]].
  - split; apply C_eq; simpl; ring.
  - replace (2 * S m)%nat with (S (S (2 * m))) by lia.
    assert (He : Cpow (mkC 0 x) (S (S (2 * m))) =
                 mkC ((-1) ^ S m * x ^ S (S (2 * m))) 0).
    { change (Cpow (mkC 0 x) (S (S (2 * m))))
        with (Cmul (mkC 0 x) (Cpow (mkC 0 x) (S (2 * m)))).
      rewrite IHo. apply C_eq; cbn [re im Cmul pow]; ring. }
    split; [exact He|].
    change (Cpow (mkC 0 x) (S (S (S (2 * m)))))
      with (Cmul (mkC 0 x) (Cpow (mkC 0 x) (S (S (2 * m))))).
    rewrite He. apply C_eq; cbn [re im Cmul pow]; ring.
Qed.

Lemma cis_term_even x m :
  cis_term x (2 * m) = RtoC (cos_n m * Rsqr x ^ m).
Proof.
  unfold cis_term. rewrite (proj1 (Cpow_imag x m)).
  apply C_eq; cbn [re im Cmul RtoC]; [|ring].
  unfold cos_n. rewrite pow_Rsqr. unfold Rdiv. ring.
Qed.

Lemma cis_term_odd x m :
  cis_term x (S (2 * m)) = mkC 0 (x * (sin_n m * Rsqr x ^ m)).
Proof.
  unfold cis_term. rewrite (proj2 (Cpow_imag x m)).
  apply C_eq; cbn [re im Cmul RtoC]; [ring|].
  unfold sin_n. replace (2 * m + 1)%nat with (S (2 * m)) by lia.
  rewrite <- pow_Rsqr. cbn [pow]. unfold Rdiv. ring.
Qed.

Lemma cis_re_sums x m :
  sum_f_R0 (fun k => re (cis_term x k)) (2 * m) =
    sum_f_R0 (fun i => cos_n i * Rsqr x ^ i) m /\
  sum_f_R0 (fun k => re (cis_term x k)) (S (2 * m)) =
    sum_f_R0 (fun i => cos_n i * Rsqr x ^ i) m.
Proof.
  induction m as [|m [IHe IHo]].
  - pose proof (cis_term_even x 0) as He.
    pose proof (cis_term_odd x 0) as Ho.
    cbn [Nat.mul Nat.add] in *. cbn [sum_f_R0].
    rewrite He, Ho. cbn [re RtoC]. lra.
  - replace (2 * S m)%nat with (S (S (2 * m))) by lia.
    cbn [sum_f_R0] in *. rewrite IHo.
    replace (S (S (2 * m))) with (2 * S m)%nat by lia.
    rewrite (cis_term_even x (S m)), (cis_term_odd x (S m)).
    cbn [re RtoC]. lra.
Qed.

Lemma cis_im_sums x m :
  sum_f_R0 (fun k => im (cis_term x k)) (S (2 * m)) =
    x * sum_f_R0 (fun i => sin_n i * Rsqr x ^ i) m /\
  sum_f_R0 (fun k => im (cis_term x k)) (S (S (2 * m))) =
    x * sum_f_R0 (fun i => sin_n i * Rsqr x ^ i) m.
Proof.
  assert (Hstep : forall n s,
    sum_f_R0 (fun k => im (cis_term x k)) (S (2 * n)) = s ->
    sum_f_R0 (fun k => im (cis_term x k)) (S (S (2 * n))) = s).
  { intros n s Hs. cbn [sum_f_R0] in *. rewrite Hs.
    replace (S (S (2 * n))) with (2 * S n)%nat by lia.
    rewrite (cis_term_even x (S n)). cbn [im RtoC]. lra. }
  induction m as [|m [IHo IHe]].
  - assert (H1 : sum_f_R0 (fun k => im (cis_term x k)) (S (2 * 0)) =
                 x * sum_f_R0 (fun i => sin_n i * Rsqr x ^ i) 0).
    { pose proof (cis_term_even x 0) as He.
      pose proof (cis_term_odd x 0) as Ho.
      cbn [Nat.mul Nat.add] in *. cbn [sum_f_R0].
      rewrite He, Ho. cbn [im RtoC]. lra. }
    split; [exact H1 | apply Hstep, H1].
  - assert (H1 : sum_f_R0 (fun k => im (cis_term x k)) (S (2 * S m)) =
                 x * sum_f_R0 (fun i => sin_n i * Rsqr x ^ i) (S m)).
    { replace (2 * S m)%nat with (S (S (2 * m))) by lia.
      cbn [sum_f_R0] in *. rewrite IHe.
      replace (S (S (2 * m))) with (2 * S m)%nat by lia.
      rewrite (cis_term_odd x (S m)). cbn [im]. lra. }
    split; [exact H1 | apply Hstep, H1].
Qed.

(** a sequence that repeats every term of a convergent sequence twice *)
Lemma Un_cv_doubled (s c : nat -> R) (l : R) :
  (forall m, s (2 * m)%nat = c m) -> (forall m, s (S (2 * m)) = c m) ->
  Un_cv c l -> Un_cv s l.
Proof.
  intros He Ho Hc eps Heps. destruct (Hc eps Heps) as [N HN].
  exists (2 * N)%nat. intros n Hn.
  destruct (Nat.Even_or_Odd n) as [[m ->]|[m ->]].
  - rewrite He. apply HN. lia.
  - replace (2 * m + 1)%nat with (S (2 * m)) by lia.
    rewrite Ho. apply HN. lia.
Qed.

Lemma Un_cv_shift (s : nat -> R) (l : R) :
  Un_cv (fun n => s (S n)) l -> Un_cv s l.
Proof.
  intros Hs eps Heps. destruct (Hs eps Heps) as [N HN].
  exists (S N). intros [|n] Hn; [lia|]. apply HN. lia.
Qed.

Lemma Un_cv_scal (c : nat -> R) (x l : R) :
  Un_cv c l -> Un_cv (fun n => x * c n) (x * l).
Proof.
  intros Hc. apply (CV_mult (fun _ => x) c x l); [|exact Hc].
  intros eps Heps. exists 0%nat. intros n _.
  unfold Rdist. rewrite Rminus_diag, Rabs_R0. exact Heps.
Qed.

Lemma cis_re_cv x :
  Un_cv (fun N => sum_f_R0 (fun k => re (cis_term x k)) N) (cos x).
Proof.
  apply (Un_cv_doubled _ (sum_f_R0 (fun i => cos_n i * Rsqr x ^ i))).
  - intros m. apply cis_re_sums.
  - intros m. apply cis_re_sums.
  - unfold cos. destruct (exist_cos (Rsqr x)) as [l Hl]. exact Hl.
Qed.

Lemma cis_im_cv x :
  Un_cv (fun N => sum_f_R0 (fun k => im (cis_term x k)) N) (sin x).
Proof.
  apply Un_cv_shift.
  apply (Un_cv_doubled _
           (fun m => x * sum_f_R0 (fun i => sin_n i * Rsqr x ^ i) m)).
  - intros m. apply cis_im_sums.
  - intros m. apply cis_im_sums.
  - unfold sin. destruct (exist_sin (Rsqr x)) as [l Hl].
    apply Un_cv_scal. exact Hl.
Qed.

(** a linear combination of two convergent series *)
Lemma series_lin (p q w : nat -> R) (a b lp lq : R) :
  (forall k, w k = a * p k + b * q k) ->
  Un_cv (fun N => sum_f_R0 p N) lp ->
  Un_cv (fun N => sum_f_R0 q N) lq ->
  Un_cv (fun N => sum_f_R0 w N) (a * lp + b * lq).
Proof.
  intros Hw Hp Hq.
  apply (Un_cv_ext (fun N => a * sum_f_R0 p N + b * sum_f_R0 q N)).
  - intros N. induction N as [|N IH]; cbn [sum_f_R0].
    + rewrite Hw. reflexivity.
    + rewrite <- IH, Hw. ring.
  - apply (CV_plus (fun N => a * sum_f_R0 p N) (fun N => b * sum_f_R0 q N));
      apply Un_cv_scal; assumption.
Qed.

Lemma Cnorm2_cis x : Cnorm2 (cis x) = 1.
Proof.
  unfold Cnorm2, cis; cbn [re im].
  pose proof (sin2_cos2 x) as Hx. unfold Rsqr in Hx. lra.
Qed.

(** ** The exponential of a matrix [spectral a b] *)

Lemma spectral_mul a b a' b' :
  matmul (spectral a b) (spectral a' b') = spectral (Cmul a a') (Cmul b b').
Proof.
  unfold spectral. arrays. entries; apply C_eq; cparts; field.
Qed.

Lemma spectral_one : meye 4 = spectral C1 C1.
Proof.
  unfold spectral. arrays. entries; apply C_eq; cparts; field.
Qed.

Lemma mpow_spectral a b k :
  mpow (spectral a b) k = spectral (Cpow a k) (Cpow b k).
Proof.
  induction k as [|k IH].
  - apply spectral_one.
  - cbn [mpow Cpow]. rewrite IH. apply spectral_mul.
Qed.

Lemma mget_spectral a b i j :
  mget (spectral a b) i j =
  mkC (tcoef i j * re a + scoef i j * re b)
      (tcoef i j * im a + scoef i j * im b).
Proof.
  unfold mget, spectral.
  destruct i as [|[|[|[|[|i]]]]]; destruct j as [|[|[|[|[|j]]]]];
    cbn [nth tcoef scoef]; apply C_eq; cparts; field.
Qed.

Lemma exp_term_spectral x y i j k :
  exp_term (spectral (mkC 0 x) (mkC 0 y)) i j k =
  mkC (tcoef i j * re (cis_term x k) + scoef i j * re (cis_term y k))
      (tcoef i j * im (cis_term x k) + scoef i j * im (cis_term y k)).
Proof.
  unfold exp_term, cis_term. rewrite mpow_spectral, mget_spectral.
  apply C_eq; cparts; ring.
Qed.

Lemma is_expm_spectral x y :
  is_expm (spectral (mkC 0 x) (mkC 0 y)) (spectral (cis x) (cis y)).
Proof.
  split; [reflexivity|]. split; [repeat constructor|].
  intros i j _ _. rewrite mget_spectral. cbn [re im cis]. split.
  - apply (series_lin (fun k => re (cis_term x k))
                      (fun k => re (cis_term y k))).
    + intros k. rewrite exp_term_spectral. reflexivity.
    + apply cis_re_cv.
    + apply cis_re_cv.
  - apply (series_lin (fun k => im (cis_term x k))
                      (fun k => im (cis_term y k))).
    + intros k. rewrite exp_term_spectral. reflexivity.
    + apply cis_im_cv.
    + apply cis_im_cv.
Qed.

Lemma expm_spectral x y :
  expm (spectral (mkC 0 x) (mkC 0 y)) = spectral (cis x) (cis y).
Proof. apply expm_unique, is_expm_spectral. Qed.

(** [spectral a b] preserves the norm when [a] and [b] have modulus 1 *)
Lemma spectral_isometry a b v0 v1 v2 v3 :
  Cnorm2 a = 1 -> Cnorm2 b = 1 ->
  norm2 (matvec (spectral a b) [v0; v1; v2; v3]) = norm2 [v0; v1; v2; v3].
Proof.
  destruct a as [ar ai], b as [br bi].
  destruct v0 as [r0 i0], v1 as [r1 i1], v2 as [r2 i2], v3 as [r3 i3].
  unfold Cnorm2; cbn [re im]. intros Ha Hb.
  unfold spectral. arrays. cbn [norm2 fold_right]. unfold Cnorm2. cparts.
  apply Rminus_diag_uniq.
  match goal with
  | |- ?l = 0 =>
      replace l with
        ((ar * ar + ai * ai - 1) *
           (r0 * r0 + i0 * i0 + (r3 * r3 + i3 * i3) +
            (r1 * r1 + i1 * i1 + (r2 * r2 + i2 * i2)) / 2 +
            (r1 * r2 + i1 * i2)) +
         (br * br + bi * bi - 1) *
           ((r1 * r1 + i1 * i1 + (r2 * r2 + i2 * i2)) / 2 -
            (r1 * r2 + i1 * i2)))
        by field
  end.
  rewrite Ha, Hb. ring.
Qed.

(** the total z-magnetisation of a state [spectral a b @ psi0] *)
Lemma total_z_spectral a b : Cnorm2 a = 1 ->
  expect sigma1Z (matvec (spectral a b) psi0) +
  expect sigma2Z (matvec (spectral a b) psi0) = 1.
Proof.
  rewrite psi0_explicit. destruct a as [ar ai], b as [br bi].
  unfold Cnorm2; cbn [re im]. intros Ha.
  pose proof inv_sqrt2_sqr as Hs. unfold spectral. arrays. cparts.
  match goal with
  | |- ?l = 1 =>
      replace l with (2 * (/ sqrt 2 * / sqrt 2) * (ar * ar + ai * ai))
        by (field; apply sqrt2_nonzero)
  end.
  rewrite Hs, Ha. field.
Qed.

(** ** The time grid and the loop *)

Lemma length_time : length time = 101%nat.
Proof. unfold time, linspace. rewrite length_map, length_seq. reflexivity. Qed.

Lemma time_0 : nth 0 time 0 = 0.
Proof.
  unfold time, linspace.
  rewrite (nth_map_lt _ _ _ _ 0%nat) by (rewrite length_seq; lia).
  rewrite seq_nth by lia. cbn [Nat.add Nat.sub Nat.ltb Nat.leb Nat.eqb andb INR].
  lra.
Qed.

Lemma time_evenly_spaced i : (i < 101)%nat -> nth i time 0 = INR i * 0.005.
Proof.
  intros Hi. unfold time, linspace.
  rewrite (nth_map_lt _ _ _ _ 0%nat) by (rewrite length_seq; exact Hi).
  rewrite seq_nth by exact Hi.
  change (101 - 1)%nat with 100%nat. change (0 + i)%nat with i.
  change (1 <? 101)%nat with true. cbn [andb].
  assert (H100 : INR 100 = 100)
    by (change 100 with (IZR (Z.of_nat 100)); apply INR_IZR_INZ).
  destruct (Nat.eqb_spec i 100) as [->|Hne].
  - rewrite H100. lra.
  - rewrite H100. lra.
Qed.

Lemma fold_append {X Y : Type} (f : X -> Y) (l : list X) (acc : list Y) :
  fold_left (fun a x => a ++ [f x]) l acc = acc ++ map f l.
Proof.
  revert acc. induction l as [|x l IH]; intros acc; cbn [fold_left map].
  - rewrite app_nil_r. reflexivity.
  - rewrite IH, <- app_assoc. reflexivity.
Qed.

Lemma psiT_map hbar :
  psiT hbar = map (fun t => matvec (expm (generator hbar t)) psi0) time.
Proof. unfold psiT, evolve_step. apply (fold_append _ time []). Qed.

Lemma length_psiT hbar : length (psiT hbar) = length time.
Proof. rewrite psiT_map. apply length_map. Qed.

Lemma psiT_nth hbar i : (i < length time)%nat ->
  nth i (psiT hbar) [] =
  matvec (expm (generator hbar (nth i time 0))) psi0.
Proof.
  intros Hi. rewrite psiT_map.
  apply (nth_map_lt (fun t => matvec (expm (generator hbar t)) psi0)
           time i [] 0 Hi).
Qed.

Lemma series_nth sigma hbar i : (i < length time)%nat ->
  nth i (map (expect sigma) (psiT hbar)) 0 =
  expect sigma (nth i (psiT hbar) []).
Proof.
  intros Hi. apply nth_map_lt. rewrite length_psiT. exact Hi.
Qed.

Lemma nrows_generator hbar t : nrows (generator hbar t) = 4%nat.
Proof.
  unfold generator, H, divs, muls, smul, nrows.
  rewrite !length_map, exchange_explicit. reflexivity.
Qed.

Lemma expm_rows4 A v : nrows A = 4%nat ->
  exists w0 w1 w2 w3, matvec (expm A) v = [w0; w1; w2; w3].
Proof.
  intros Hn. unfold expm. rewrite Hn. cbn [seq map matvec]. eauto.
Qed.

Lemma psiT_rows4 hbar p : In p (psiT hbar) ->
  exists w0 w1 w2 w3, p = [w0; w1; w2; w3].
Proof.
  rewrite psiT_map, in_map_iff. intros (t & <- & _).
  apply expm_rows4, nrows_generator.
Qed.

Lemma propagate_returns hbar : propagate hbar = inr (psiT hbar).
Proof.
  unfold propagate, psiT, ret. generalize (@nil vec).
  induction time as [|t l IH]; intros acc; cbn [fold_left bind].
  - reflexivity.
  - apply IH.
Qed.

Lemma hbar_CODATA_nonzero : hbar_CODATA <> 0.
Proof.
  unfold hbar_CODATA. pose proof PI_RGT_0 as Hpi.
  apply Rgt_not_eq, Rdiv_lt_0_compat; lra.
Qed.

(** ** The propagator in closed form *)

Section NonzeroHbar.

Variable hbar : R.
Hypothesis hbar_nonzero : hbar <> 0.

Lemma generator_spectral t :
  generator hbar t = spectral (mkC 0 (- phase t)) (mkC 0 (3 * phase t)).
Proof.
  unfold generator, H. rewrite exchange_explicit.
  unfold exchange_entries, spectral, phase. arrays.
  entries; apply C_eq; cparts; field; exact hbar_nonzero.
Qed.

Lemma propagator_closed t :
  expm (generator hbar t) = spectral (cis (- phase t)) (cis (3 * phase t)).
Proof. rewrite generator_spectral. apply expm_spectral. Qed.

Lemma generator_free_eq t : generator hbar t = generator_free t.
Proof.
  unfold generator, generator_free, H.
  rewrite exchange_explicit. unfold exchange_entries. arrays.
  entries; apply C_eq; cparts; field; exact hbar_nonzero.
Qed.

Lemma psiT_closed : psiT hbar = map state_at time.
Proof.
  rewrite psiT_map. apply map_ext. intros t.
  unfold state_at. rewrite propagator_closed. reflexivity.
Qed.

Lemma psiT_nth_closed i : (i < length time)%nat ->
  nth i (psiT hbar) [] = state_at (nth i time 0).
Proof.
  intros Hi. rewrite psiT_closed. apply (nth_map_lt _ time i [] 0 Hi).
Qed.

End NonzeroHbar.

(** ** The states and the observables *)

Lemma norm2_psi0 : norm2 psi0 = 1.
Proof.
  rewrite psi0_explicit. cbn [norm2 fold_right]. unfold Cnorm2. cparts.
  pose proof inv_sqrt2_sqr. lra.
Qed.

Lemma norm2_state_at t : norm2 (state_at t) = 1.
Proof.
  unfold state_at. rewrite psi0_explicit.
  rewrite spectral_isometry by apply Cnorm2_cis.
  rewrite <- psi0_explicit. apply norm2_psi0.
Qed.

Lemma state_at_0 : state_at 0 = psi0.
Proof.
  unfold state_at, phase.
  replace (- (J * 0 / 4)) with 0 by lra.
  replace (3 * (J * 0 / 4)) with 0 by lra.
  unfold cis. rewrite cos_0, sin_0, psi0_explicit.
  unfold spectral. arrays.
  entries; apply C_eq; cparts; field; apply sqrt2_nonzero.
Qed.

Lemma expect_braket sigma p0 p1 p2 p3 : In sigma paulis ->
  expect sigma [p0; p1; p2; p3] = re (braket sigma [p0; p1; p2; p3]).
Proof.
  intros Hs. destruct p0, p1, p2, p3.
  repeat (destruct Hs as [<-|Hs]; [arrays; cparts; ring|]).
  destruct Hs.
Qed.

Lemma expect_bounds sigma p0 p1 p2 p3 : In sigma paulis ->
  norm2 [p0; p1; p2; p3] = 1 ->
  -1 <= expect sigma [p0; p1; p2; p3] <= 1.
Proof.
  intros Hs. destruct p0 as [a0 b0], p1 as [a1 b1], p2 as [a2 b2], p3 as [a3 b3].
  square_hints a0 a2; square_hints b0 b2; square_hints a1 a3;
  square_hints b1 b3; square_hints a0 a1; square_hints b0 b1;
  square_hints a2 a3; square_hints b2 b3; square_hints a0 b2;
  square_hints b0 a2; square_hints a1 b3; square_hints b1 a3;
  square_hints a0 b1; square_hints b0 a1; square_hints a2 b3;
  square_hints b2 a3.
  pose proof (Rle_0_sqr a0); pose proof (Rle_0_sqr b0);
  pose proof (Rle_0_sqr a1); pose proof (Rle_0_sqr b1);
  pose proof (Rle_0_sqr a2); pose proof (Rle_0_sqr b2);
  pose proof (Rle_0_sqr a3); pose proof (Rle_0_sqr b3).
  unfold Rsqr in *.
  repeat (destruct Hs as [<-|Hs];
          [arrays; unfold Cnorm2; cparts; intros Hn; lra|]).
  destruct Hs.
Qed.

Lemma expect_psi0 :
  expect sigma1X psi0 = 0 /\ expect sigma1Y psi0 = 0 /\
  expect sigma1Z psi0 = 1 /\
  expect sigma2X psi0 = 1 /\ expect sigma2Y psi0 = 0 /\
  expect sigma2Z psi0 = 0.
Proof.
  rewrite psi0_explicit. pose proof inv_sqrt2_sqr as Hs.
  repeat split; arrays; cparts; lra.
Qed.

(** ** The product of a matrix and a state, entry by entry *)

Lemma mget_tabulate n f i j : (i < n)%nat -> (j < n)%nat ->
  mget (tabulate n f) i j = f i j.
Proof.
  intros Hi Hj. unfold mget, tabulate.
  rewrite (nth_map_seq _ n i) by exact Hi.
  apply (nth_map_seq _ n j). exact Hj.
Qed.

Lemma square_tabulate n E :
  nrows E = n -> Forall (fun r => length r = n) E ->
  E = tabulate n (mget E).
Proof.
  intros Hn Hr. apply (matrix_ext n); try assumption.
  - unfold nrows, tabulate. rewrite length_map, length_seq. reflexivity.
  - unfold tabulate. apply Forall_map, Forall_forall. intros i _.
    rewrite length_map, length_seq. reflexivity.
  - intros i j Hi Hj. rewrite mget_tabulate by assumption. reflexivity.
Qed.

Lemma matvec_entries4 (f : nat -> nat -> C) (v0 v1 v2 v3 : C) :
  matvec (tabulate 4 f) [v0; v1; v2; v3] =
  map (mvprod_entry (tabulate 4 f) [v0; v1; v2; v3]) (seq 0 4).
Proof.
  unfold mvprod_entry. arrays. entries; apply C_eq; cparts; ring.
Qed.

Lemma propagate_entries hbar t :
  matvec (expm (generator hbar t)) psi0 =
  map (mvprod_entry (expm (generator hbar t)) psi0) (seq 0 4).
Proof.
  destruct (expm_is_expm (generator hbar t)) as (Hn & Hr & _).
  rewrite nrows_generator in Hn, Hr.
  rewrite (square_tabulate 4 _ Hn Hr), psi0_explicit.
  apply matvec_entries4.
Qed.

Lemma state_at_closed t : state_at t = psi_closed t.
Proof.
  unfold state_at, psi_closed.
  replace (phase t) with (PI * t / 2) by (unfold phase, J; field).
  rewrite psi0_explicit. unfold spectral, cis. rewrite cos_neg, sin_neg.
  arrays.
  entries; apply C_eq; cparts; field; apply sqrt2_nonzero.
Qed.

(** * The claims *)

(** C1.  For every time [t] of the grid the loop computes
    [psi(t) = expm(-1j*H*t/hbar) @ psi0]: the trajectory is the time grid
    mapped, in order and sample by sample, through a function of [t] and
    [psi0] alone, so no state is built from an earlier one; each sample
    has its own matrix exponential, the sum of the exponential series of
    the matrix with entries [-1j*H[i][j]*t/hbar].  Component [r] of the
    state is the sum over [k] of [U(t)[r][k] * psi0[k]], and with a
    nonzero [hbar] the states are those of the analytic solution. *)
Theorem psiT_samples_independent (hbar : R) :
  psiT hbar = map (fun t => matvec (expm (generator hbar t)) psi0) time /\
  (forall i, nth_error (psiT hbar) i =
             option_map (fun t => matvec (expm (generator hbar t)) psi0)
                        (nth_error time i)) /\
  (forall t, is_expm (generator hbar t) (expm (generator hbar t))) /\
  (forall t, generator hbar t =
             tabulate 4 (fun i j =>
               Cdiv (Cmul (Cmul (Copp Ci) (mget (H hbar) i j)) (RtoC t))
                    (RtoC hbar))) /\
  psiT hbar =
    map (fun t => map (mvprod_entry (expm (generator hbar t)) psi0) (seq 0 4))
        time /\
  (hbar <> 0 -> psiT hbar = map psi_closed time).
Proof.
  split; [apply psiT_map|]. split; [|split; [|split; [|split]]].
  - intros i. rewrite psiT_map. apply nth_error_map.
  - intros t. apply expm_is_expm.
  - intros t. unfold generator, H. rewrite exchange_explicit.
    unfold exchange_entries. arrays. reflexivity.
  - rewrite psiT_map. apply map_ext. intros t. apply propagate_entries.
  - intros Hh. rewrite (psiT_closed hbar Hh). apply map_ext.
    intros t. apply state_at_closed.
Qed.

Lemma psiT_samples_independent_witness :
  hbar_CODATA <> 0 /\ psiT hbar_CODATA = map psi_closed time.
Proof.
  split; [exact hbar_CODATA_nonzero|].
  exact (proj2 (proj2 (proj2 (proj2 (proj2
           (psiT_samples_independent hbar_CODATA)))))
           hbar_CODATA_nonzero).
Defined.

(** C2.  With a nonzero [hbar], the state at every time of the grid has
    the norm of the initial state, and that norm is 1. *)
Theorem psiT_norm_preserved (hbar : R) (i : nat) :
  hbar <> 0 -> (i < length time)%nat ->
  norm (nth i (psiT hbar) []) = norm psi0 /\ norm psi0 = 1.
Proof.
  intros Hh Hi. rewrite (psiT_nth_closed hbar Hh i Hi).
  unfold norm. rewrite norm2_state_at, norm2_psi0, sqrt_1. split; reflexivity.
Qed.

Lemma psiT_norm_preserved_witness :
  hbar_CODATA <> 0 /\ (100 < length time)%nat /\
  norm (nth 100 (psiT hbar_CODATA) []) = norm psi0 /\ norm psi0 = 1.
Proof.
  assert (Hi : (100 < length time)%nat) by (rewrite length_time; lia).
  split; [exact hbar_CODATA_nonzero|]. split; [exact Hi|].
  exact (psiT_norm_preserved hbar_CODATA 100 hbar_CODATA_nonzero Hi).
Defined.

(** C3.  The Hamiltonian is [(J*hbar/4)] times the elementwise sum of the
    three matrix products [sigma1x sigma2x], [sigma1y sigma2y] and
    [sigma1z sigma2z], each product being the sum over [k] of
    [A[i][k] * B[k][j]]; entry by entry it is [(J*hbar/4)] times the
    matrix with rows (1,0,0,0), (0,-1,2,0), (0,2,-1,0), (0,0,0,1). *)
Theorem H_exchange_formula (hbar : R) :
  H hbar =
    tabulate 4 (fun i j =>
      Cmul (RtoC (J * hbar / 4))
           (Cadd (Cadd (mprod_entry sigma1X sigma2X i j)
                       (mprod_entry sigma1Y sigma2Y i j))
                 (mprod_entry sigma1Z sigma2Z i j))) /\
  H hbar = smul (RtoC (J * hbar / 4)) exchange_entries.
Proof.
  split.
  - unfold H. arrays. entries; apply C_eq; cparts; ring.
  - unfold H. rewrite exchange_explicit. reflexivity.
Qed.

(** C4.  The Hamiltonian equals its conjugate transpose. *)
Theorem H_hermitian (hbar : R) : dagger (H hbar) = H hbar.
Proof.
  unfold H. rewrite exchange_explicit. unfold exchange_entries. arrays.
  entries; apply C_eq; cparts; ring.
Qed.

(** C5.  Each of the six series holds, at every index [i] of the grid,
    the real part of the expectation value of its Pauli operator in the
    state [psi(t_i)], and each series has the length of the trajectory,
    which is the length of the time grid. *)
Theorem observables_are_expectations (hbar : R) (i : nat) :
  (i < length time)%nat ->
  nth i (x1 hbar) 0 = re (braket sigma1X (nth i (psiT hbar) [])) /\
  nth i (y1 hbar) 0 = re (braket sigma1Y (nth i (psiT hbar) [])) /\
  nth i (z1 hbar) 0 = re (braket sigma1Z (nth i (psiT hbar) [])) /\
  nth i (x2 hbar) 0 = re (braket sigma2X (nth i (psiT hbar) [])) /\
  nth i (y2 hbar) 0 = re (braket sigma2Y (nth i (psiT hbar) [])) /\
  nth i (z2 hbar) 0 = re (braket sigma2Z (nth i (psiT hbar) [])) /\
  Forall (fun series : list R => length series = length (psiT hbar))
         [x1 hbar; y1 hbar; z1 hbar; x2 hbar; y2 hbar; z2 hbar] /\
  length (psiT hbar) = length time.
Proof.
  intros Hi.
  assert (Hin : In (nth i (psiT hbar) []) (psiT hbar))
    by (apply nth_In; rewrite length_psiT; exact Hi).
  destruct (psiT_rows4 hbar _ Hin) as (w0 & w1 & w2 & w3 & Hw).
  unfold x1, y1, z1, x2, y2, z2. rewrite !series_nth by exact Hi.
  rewrite Hw.
  repeat (split; [apply expect_braket; unfold paulis; simpl; tauto|]).
  split; [|apply length_psiT].
  repeat constructor; apply length_map.
Qed.

Lemma observables_are_expectations_witness :
  (50 < length time)%nat /\
  nth 50 (z1 hbar_CODATA) 0 =
    re (braket sigma1Z (nth 50 (psiT hbar_CODATA) [])) /\
  length (z1 hbar_CODATA) = 101%nat.
Proof.
  assert (Hi : (50 < length time)%nat) by (rewrite length_time; lia).
  pose proof (observables_are_expectations hbar_CODATA 50 Hi)
    as (_ & _ & Hz & _ & _ & _ & Hlen & Hl).
  split; [exact Hi|]. split; [exact Hz|].
  inversion Hlen as [|? ? _ Hr1]. inversion Hr1 as [|? ? _ Hr2].
  inversion Hr2 as [|? ? Hz1 _]. rewrite Hz1, Hl. apply length_time.
Defined.

(** C6.  With a nonzero [hbar], every value of the six series lies in
    the closed interval from -1 to 1. *)
Theorem observables_in_unit_interval (hbar : R) (i : nat) :
  hbar <> 0 -> (i < length time)%nat ->
  Forall (fun series : list R => -1 <= nth i series 0 <= 1)
         [x1 hbar; y1 hbar; z1 hbar; x2 hbar; y2 hbar; z2 hbar].
Proof.
  intros Hh Hi.
  assert (Hin : In (nth i (psiT hbar) []) (psiT hbar))
    by (apply nth_In; rewrite length_psiT; exact Hi).
  destruct (psiT_rows4 hbar _ Hin) as (w0 & w1 & w2 & w3 & Hw).
  assert (Hn : norm2 [w0; w1; w2; w3] = 1).
  { rewrite <- Hw, (psiT_nth_closed hbar Hh i Hi). apply norm2_state_at. }
  unfold x1, y1, z1, x2, y2, z2.
  repeat (constructor;
          [rewrite (series_nth _ hbar i Hi), Hw;
           apply expect_bounds; [unfold paulis; simpl; tauto | exact Hn]|]).
  constructor.
Qed.

Lemma observables_in_unit_interval_witness :
  hbar_CODATA <> 0 /\ (100 < length time)%nat /\
  Forall (fun series : list R => -1 <= nth 100 series 0 <= 1)
         [x1 hbar_CODATA; y1 hbar_CODATA; z1 hbar_CODATA;
          x2 hbar_CODATA; y2 hbar_CODATA; z2 hbar_CODATA].
Proof.
  assert (Hi : (100 < length time)%nat) by (rewrite length_time; lia).
  split; [exact hbar_CODATA_nonzero|]. split; [exact Hi|].
  exact (observables_in_unit_interval hbar_CODATA 100 hbar_CODATA_nonzero Hi).
Defined.

(** C7, as the specification states it, fails: with [hbar] zero the cell
    does not stop with [InvalidParameter].  It holds no guard, so the
    loop is entered and every sample is handed to [expm].  (The value
    the model computes there rests on the exact division by zero and has
    no meaning for the notebook, where numpy yields [nan] entries with a
    warning; only the absence of the error is used.) *)
Lemma propagate_zero_hbar_unguarded : propagate 0 <> inl InvalidParameter.
Proof. rewrite propagate_returns. discriminate. Qed.

(** C7, amended.  The cell has no guard on [hbar] and no error of its
    own: for every nonzero [hbar], the constant of [scipy.constants]
    among them, it runs to its end and returns the trajectory, one state
    of norm 1 for each time of the grid. *)
Theorem propagate_total (hbar : R) :
  hbar <> 0 ->
  propagate hbar = inr (psiT hbar) /\
  length (psiT hbar) = length time /\
  Forall (fun p => norm p = 1) (psiT hbar) /\
  forall e : error, propagate hbar <> inl e.
Proof.
  intros Hh. rewrite propagate_returns. split; [reflexivity|].
  split; [apply length_psiT|]. split; [|discriminate].
  rewrite (psiT_closed hbar Hh). apply Forall_map, Forall_forall.
  intros t _. unfold norm. rewrite norm2_state_at. apply sqrt_1.
Qed.

Lemma propagate_total_witness :
  hbar_CODATA <> 0 /\
  propagate hbar_CODATA = inr (psiT hbar_CODATA) /\
  length (psiT hbar_CODATA) = length time /\
  Forall (fun p => norm p = 1) (psiT hbar_CODATA) /\
  forall e : error, propagate hbar_CODATA <> inl e.
Proof.
  split; [exact hbar_CODATA_nonzero|].
  exact (propagate_total hbar_CODATA hbar_CODATA_nonzero).
Defined.

(** C8.  In the reference configuration ([J] is two pi, [psi1 = (1,0)],
    [psi2 = (1,1)/sqrt(2)], 101 evenly spaced times from 0 to 0.5) and
    with a nonzero [hbar], the first sample is at time 0 and the series
    start at (0,0,1) for the first spin and at (1,0,0) for the second. *)
Theorem initial_observables (hbar : R) :
  hbar <> 0 ->
  length time = 101%nat /\
  (forall i, (i < 101)%nat -> nth i time 0 = INR i * 0.005) /\
  nth 0 time 0 = 0 /\
  (nth 0 (x1 hbar) 0, nth 0 (y1 hbar) 0, nth 0 (z1 hbar) 0) = (0, 0, 1) /\
  (nth 0 (x2 hbar) 0, nth 0 (y2 hbar) 0, nth 0 (z2 hbar) 0) = (1, 0, 0).
Proof.
  intros Hh.
  assert (Hi : (0 < length time)%nat) by (rewrite length_time; lia).
  split; [apply length_time|]. split; [apply time_evenly_spaced|].
  split; [apply time_0|].
  unfold x1, y1, z1, x2, y2, z2. rewrite !(series_nth _ hbar 0 Hi).
  rewrite (psiT_nth_closed hbar Hh 0%nat Hi), time_0, state_at_0.
  destruct expect_psi0 as (-> & -> & -> & -> & -> & ->).
  split; reflexivity.
Qed.

Lemma initial_observables_witness :
  hbar_CODATA <> 0 /\
  (nth 0 (x1 hbar_CODATA) 0, nth 0 (y1 hbar_CODATA) 0,
   nth 0 (z1 hbar_CODATA) 0) = (0, 0, 1) /\
  (nth 0 (x2 hbar_CODATA) 0, nth 0 (y2 hbar_CODATA) 0,
   nth 0 (z2 hbar_CODATA) 0) = (1, 0, 0).
Proof.
  split; [exact hbar_CODATA_nonzero|].
  exact (proj2 (proj2 (proj2
           (initial_observables hbar_CODATA hbar_CODATA_nonzero)))).
Defined.

(** C9.  With a nonzero [hbar], the sum of the two z series is the same
    at every index of the grid: it is the sum at index 0, which is 1.
    The Hamiltonian commutes with [sigma1Z + sigma2Z]. *)
Theorem total_z_conserved (hbar : R) (i : nat) :
  hbar <> 0 -> (i < length time)%nat ->
  nth i (z1 hbar) 0 + nth i (z2 hbar) 0 =
    nth 0 (z1 hbar) 0 + nth 0 (z2 hbar) 0 /\
  nth 0 (z1 hbar) 0 + nth 0 (z2 hbar) 0 = 1 /\
  matmul (H hbar) (madd sigma1Z sigma2Z) =
    matmul (madd sigma1Z sigma2Z) (H hbar).
Proof.
  intros Hh Hi.
  assert (H0 : (0 < length time)%nat) by (rewrite length_time; lia).
  assert (Hz : forall k, (k < length time)%nat ->
                         nth k (z1 hbar) 0 + nth k (z2 hbar) 0 = 1).
  { intros k Hk. unfold z1, z2. rewrite !(series_nth _ hbar k Hk).
    rewrite (psiT_nth_closed hbar Hh k Hk). unfold state_at.
    apply total_z_spectral, Cnorm2_cis. }
  split; [rewrite (Hz i Hi), (Hz 0%nat H0); reflexivity|].
  split; [apply (Hz 0%nat H0)|].
  unfold H. rewrite exchange_explicit. unfold exchange_entries. arrays.
  entries; apply C_eq; cparts; ring.
Qed.

Lemma total_z_conserved_witness :
  hbar_CODATA <> 0 /\ (73 < length time)%nat /\
  nth 73 (z1 hbar_CODATA) 0 + nth 73 (z2 hbar_CODATA) 0 =
    nth 0 (z1 hbar_CODATA) 0 + nth 0 (z2 hbar_CODATA) 0 /\
  nth 0 (z1 hbar_CODATA) 0 + nth 0 (z2 hbar_CODATA) 0 = 1.
Proof.
  assert (Hi : (73 < length time)%nat) by (rewrite length_time; lia).
  pose proof (total_z_conserved hbar_CODATA 73 hbar_CODATA_nonzero Hi)
    as (Hs & H1 & _).
  split; [exact hbar_CODATA_nonzero|]. split; [exact Hi|].
  split; [exact Hs | exact H1].
Defined.

(** C10.  With a nonzero [hbar], the [hbar] of the Hamiltonian cancels
    the [hbar] of the propagator: the matrix handed to [expm] is
    [-1j*(J/4)*(sigma1x sigma2x + sigma1y sigma2y + sigma1z sigma2z)*t],
    and the trajectory and the six series are those of the pipeline run
    with [hbar] replaced by 1. *)
Theorem hbar_cancels (hbar : R) :
  hbar <> 0 ->
  (forall t, generator hbar t = generator_free t) /\
  (forall t, matvec (expm (generator hbar t)) psi0 =
             matvec (expm (generator_free t)) psi0) /\
  psiT hbar = map (fun t => matvec (expm (generator_free t)) psi0) time /\
  psiT hbar = psiT 1 /\
  [x1 hbar; y1 hbar; z1 hbar; x2 hbar; y2 hbar; z2 hbar] =
  [x1 1; y1 1; z1 1; x2 1; y2 1; z2 1].
Proof.
  intros Hh.
  assert (Hg : forall t, generator hbar t = generator_free t)
    by (intros t; apply generator_free_eq, Hh).
  assert (Hp : psiT hbar = psiT 1).
  { assert (H1 : 1 <> 0) by lra.
    rewrite !psiT_map. apply map_ext. intros t.
    rewrite (Hg t), (generator_free_eq 1 H1 t). reflexivity. }
  split; [exact Hg|]. split; [intros t; rewrite (Hg t); reflexivity|].
  split; [rewrite psiT_map; apply map_ext; intros t; rewrite (Hg t);
          reflexivity|].
  split; [exact Hp|].
  unfold x1, y1, z1, x2, y2, z2. rewrite Hp. reflexivity.
Qed.

Lemma hbar_cancels_witness :
  hbar_CODATA <> 0 /\
  psiT hbar_CODATA = psiT 1 /\
  [x1 hbar_CODATA; y1 hbar_CODATA; z1 hbar_CODATA;
   x2 hbar_CODATA; y2 hbar_CODATA; z2 hbar_CODATA] =
  [x1 1; y1 1; z1 1; x2 1; y2 1; z2 1].
Proof.
  split; [exact hbar_CODATA_nonzero|].
  exact (proj2 (proj2 (proj2
           (hbar_cancels hbar_CODATA hbar_CODATA_nonzero)))).
Defined.

(** * Further properties of the notebook *)

(** ** The Bloch vectors in closed form *)

(** the expectation values in a state [spectral a b @ psi0], in terms of
    the squared modulus of [a] and of the real and imaginary parts of
    [conj(a) * b] *)
Lemma expect_spectral_raw a b :
  expect sigma1X (matvec (spectral a b) psi0) =
    (Cnorm2 a - (re a * re b + im a * im b)) / 2 /\
  expect sigma1Y (matvec (spectral a b) psi0) =
    - (re a * im b - im a * re b) / 2 /\
  expect sigma1Z (matvec (spectral a b) psi0) =
    (Cnorm2 a + (re a * re b + im a * im b)) / 2 /\
  expect sigma2X (matvec (spectral a b) psi0) =
    (Cnorm2 a + (re a * re b + im a * im b)) / 2 /\
  expect sigma2Y (matvec (spectral a b) psi0) =
    (re a * im b - im a * re b) / 2 /\
  expect sigma2Z (matvec (spectral a b) psi0) =
    (Cnorm2 a - (re a * re b + im a * im b)) / 2.
Proof.
  rewrite psi0_explicit. destruct a as [ar ai], b as [br bi].
  unfold Cnorm2; cbn [re im].
  pose proof inv_sqrt2_sqr as Hs. unfold spectral.
  repeat split; arrays; cparts;
    match goal with
    | |- ?l = ?r =>
        replace l with (2 * (/ sqrt 2 * / sqrt 2) * r)
          by (field; apply sqrt2_nonzero)
    end; rewrite Hs; field.
Qed.

Lemma cis_conj_mul x :
  re (cis (- x)) * re (cis (3 * x)) + im (cis (- x)) * im (cis (3 * x)) =
    cos (4 * x) /\
  re (cis (- x)) * im (cis (3 * x)) - im (cis (- x)) * re (cis (3 * x)) =
    sin (4 * x).
Proof.
  cbn [cis re im]. replace (4 * x) with (3 * x - - x) by ring.
  rewrite cos_minus, sin_minus. split; ring.
Qed.

Lemma four_phase t : 4 * phase t = 2 * PI * t.
Proof. unfold phase, J. field. Qed.

Lemma bloch_state_at t :
  expect sigma1X (state_at t) = (1 - cos (2 * PI * t)) / 2 /\
  expect sigma1Y (state_at t) = - sin (2 * PI * t) / 2 /\
  expect sigma1Z (state_at t) = (1 + cos (2 * PI * t)) / 2 /\
  expect sigma2X (state_at t) = (1 + cos (2 * PI * t)) / 2 /\
  expect sigma2Y (state_at t) = sin (2 * PI * t) / 2 /\
  expect sigma2Z (state_at t) = (1 - cos (2 * PI * t)) / 2.
Proof.
  unfold state_at.
  pose proof (expect_spectral_raw (cis (- phase t)) (cis (3 * phase t)))
    as Hraw.
  destruct (cis_conj_mul (phase t)) as [Hc Hs].
  rewrite Hc, Hs, Cnorm2_cis, four_phase in Hraw. exact Hraw.
Qed.

Lemma series_closed hbar sigma i : hbar <> 0 -> (i < length time)%nat ->
  nth i (map (expect sigma) (psiT hbar)) 0 =
  expect sigma (state_at (nth i time 0)).
Proof.
  intros Hh Hi. rewrite (series_nth sigma hbar i Hi).
  rewrite (psiT_nth_closed hbar Hh i Hi). reflexivity.
Qed.

Lemma index_in_grid i : (i <= 100)%nat -> (i < length time)%nat.
Proof. rewrite length_time. lia. Qed.

(** X1.  With a nonzero [hbar], the six series are these functions of
    the time [t] of the sample: for the first spin
    ((1 - cos 2 pi t)/2, -(sin 2 pi t)/2, (1 + cos 2 pi t)/2), for the
    second ((1 + cos 2 pi t)/2, (sin 2 pi t)/2, (1 - cos 2 pi t)/2). *)
Theorem observables_closed_form (hbar : R) (i : nat) :
  hbar <> 0 -> (i < length time)%nat ->
  nth i (x1 hbar) 0 = (1 - cos (2 * PI * nth i time 0)) / 2 /\
  nth i (y1 hbar) 0 = - sin (2 * PI * nth i time 0) / 2 /\
  nth i (z1 hbar) 0 = (1 + cos (2 * PI * nth i time 0)) / 2 /\
  nth i (x2 hbar) 0 = (1 + cos (2 * PI * nth i time 0)) / 2 /\
  nth i (y2 hbar) 0 = sin (2 * PI * nth i time 0) / 2 /\
  nth i (z2 hbar) 0 = (1 - cos (2 * PI * nth i time 0)) / 2.
Proof.
  intros Hh Hi. unfold x1, y1, z1, x2, y2, z2.
  rewrite !(series_closed hbar _ i Hh Hi). apply bloch_state_at.
Qed.

Lemma observables_closed_form_witness :
  hbar_CODATA <> 0 /\ (25 < length time)%nat /\
  nth 25 (x1 hbar_CODATA) 0 = (1 - cos (2 * PI * nth 25 time 0)) / 2 /\
  nth 25 (y1 hbar_CODATA) 0 = - sin (2 * PI * nth 25 time 0) / 2 /\
  nth 25 (z1 hbar_CODATA) 0 = (1 + cos (2 * PI * nth 25 time 0)) / 2 /\
  nth 25 (x2 hbar_CODATA) 0 = (1 + cos (2 * PI * nth 25 time 0)) / 2 /\
  nth 25 (y2 hbar_CODATA) 0 = sin (2 * PI * nth 25 time 0) / 2 /\
  nth 25 (z2 hbar_CODATA) 0 = (1 - cos (2 * PI * nth 25 time 0)) / 2.
Proof.
  assert (Hi : (25 < length time)%nat) by (apply index_in_grid; lia).
  split; [exact hbar_CODATA_nonzero|]. split; [exact Hi|].
  exact (observables_closed_form hbar_CODATA 25 hbar_CODATA_nonzero Hi).
Defined.

(** X2.  With a nonzero [hbar], the sum of the two Bloch vectors is the
    same at every sample: the x series add up to 1 and the y series
    to 0. *)
Theorem total_xy_conserved (hbar : R) (i : nat) :
  hbar <> 0 -> (i < length time)%nat ->
  nth i (x1 hbar) 0 + nth i (x2 hbar) 0 = 1 /\
  nth i (y1 hbar) 0 + nth i (y2 hbar) 0 = 0.
Proof.
  intros Hh Hi. unfold x1, y1, x2, y2.
  rewrite !(series_closed hbar _ i Hh Hi).
  destruct (bloch_state_at (nth i time 0)) as (-> & -> & _ & -> & -> & _).
  split; field.
Qed.

Lemma total_xy_conserved_witness :
  hbar_CODATA <> 0 /\ (37 < length time)%nat /\
  nth 37 (x1 hbar_CODATA) 0 + nth 37 (x2 hbar_CODATA) 0 = 1 /\
  nth 37 (y1 hbar_CODATA) 0 + nth 37 (y2 hbar_CODATA) 0 = 0.
Proof.
  assert (Hi : (37 < length time)%nat) by (apply index_in_grid; lia).
  split; [exact hbar_CODATA_nonzero|]. split; [exact Hi|].
  exact (total_xy_conserved hbar_CODATA 37 hbar_CODATA_nonzero Hi).
Defined.

Lemma time_last : nth 100 time 0 = 0.5.
Proof.
  rewrite time_evenly_spaced by lia.
  replace (INR 100) with 100
    by (change 100 with (IZR (Z.of_nat 100)); symmetry; apply INR_IZR_INZ).
  lra.
Qed.

(** X3.  With a nonzero [hbar], the last sample is at time 0.5 and the
    two spins have changed places there: the first spin ends at (1,0,0),
    where the second started, and the second at (0,0,1), where the first
    started. *)
Theorem final_states_swapped (hbar : R) :
  hbar <> 0 ->
  nth 100 time 0 = 0.5 /\
  (nth 100 (x1 hbar) 0, nth 100 (y1 hbar) 0, nth 100 (z1 hbar) 0) =
    (1, 0, 0) /\
  (nth 100 (x2 hbar) 0, nth 100 (y2 hbar) 0, nth 100 (z2 hbar) 0) =
    (0, 0, 1).
Proof.
  intros Hh. split; [apply time_last|].
  assert (Hi : (100 < length time)%nat) by (apply index_in_grid; lia).
  unfold x1, y1, z1, x2, y2, z2.
  rewrite !(series_closed hbar _ 100 Hh Hi), time_last.
  destruct (bloch_state_at 0.5) as (-> & -> & -> & -> & -> & ->).
  replace (2 * PI * 0.5) with PI by lra. rewrite cos_PI, sin_PI.
  split; repeat (f_equal; try lra).
Qed.

Lemma final_states_swapped_witness :
  hbar_CODATA <> 0 /\
  nth 100 time 0 = 0.5 /\
  (nth 100 (x1 hbar_CODATA) 0, nth 100 (y1 hbar_CODATA) 0,
   nth 100 (z1 hbar_CODATA) 0) = (1, 0, 0) /\
  (nth 100 (x2 hbar_CODATA) 0, nth 100 (y2 hbar_CODATA) 0,
   nth 100 (z2 hbar_CODATA) 0) = (0, 0, 1).
Proof.
  split; [exact hbar_CODATA_nonzero|].
  exact (final_states_swapped hbar_CODATA hbar_CODATA_nonzero).
Defined.

Lemma bloch_norm2_state_at t :
  bloch_norm2 (expect sigma1X (state_at t)) (expect sigma1Y (state_at t))
              (expect sigma1Z (state_at t)) =
    (3 + cos (2 * PI * t) * cos (2 * PI * t)) / 4 /\
  bloch_norm2 (expect sigma2X (state_at t)) (expect sigma2Y (state_at t))
              (expect sigma2Z (state_at t)) =
    (3 + cos (2 * PI * t) * cos (2 * PI * t)) / 4.
Proof.
  destruct (bloch_state_at t) as (-> & -> & -> & -> & -> & ->).
  pose proof (sin2_cos2 (2 * PI * t)) as Hsc. unfold Rsqr in Hsc.
  unfold bloch_norm2. split; nra.
Qed.

Lemma cos_sqr_le_1 x : 0 <= cos x * cos x <= 1.
Proof.
  pose proof (sin2_cos2 x) as Hsc. unfold Rsqr in Hsc.
  pose proof (Rle_0_sqr (sin x)) as Hs. pose proof (Rle_0_sqr (cos x)) as Hc.
  unfold Rsqr in Hs, Hc. lra.
Qed.

(** X4.  With a nonzero [hbar], the Bloch vectors of the two spins have
    the same length at every sample, and its square is
    (3 + cos^2 2 pi t)/4. *)
Theorem bloch_vector_length (hbar : R) (i : nat) :
  hbar <> 0 -> (i < length time)%nat ->
  bloch_norm2 (nth i (x1 hbar) 0) (nth i (y1 hbar) 0) (nth i (z1 hbar) 0) =
    (3 + cos (2 * PI * nth i time 0) * cos (2 * PI * nth i time 0)) / 4 /\
  bloch_norm2 (nth i (x2 hbar) 0) (nth i (y2 hbar) 0) (nth i (z2 hbar) 0) =
    bloch_norm2 (nth i (x1 hbar) 0) (nth i (y1 hbar) 0) (nth i (z1 hbar) 0).
Proof.
  intros Hh Hi. unfold x1, y1, z1, x2, y2, z2.
  rewrite !(series_closed hbar _ i Hh Hi).
  destruct (bloch_norm2_state_at (nth i time 0)) as [-> ->].
  split; reflexivity.
Qed.

Lemma bloch_vector_length_witness :
  hbar_CODATA <> 0 /\ (50 < length time)%nat /\
  bloch_norm2 (nth 50 (x1 hbar_CODATA) 0) (nth 50 (y1 hbar_CODATA) 0)
              (nth 50 (z1 hbar_CODATA) 0) =
    (3 + cos (2 * PI * nth 50 time 0) * cos (2 * PI * nth 50 time 0)) / 4 /\
  bloch_norm2 (nth 50 (x2 hbar_CODATA) 0) (nth 50 (y2 hbar_CODATA) 0)
              (nth 50 (z2 hbar_CODATA) 0) =
    bloch_norm2 (nth 50 (x1 hbar_CODATA) 0) (nth 50 (y1 hbar_CODATA) 0)
                (nth 50 (z1 hbar_CODATA) 0).
Proof.
  assert (Hi : (50 < length time)%nat) by (apply index_in_grid; lia).
  split; [exact hbar_CODATA_nonzero|]. split; [exact Hi|].
  exact (bloch_vector_length hbar_CODATA 50 hbar_CODATA_nonzero Hi).
Defined.

Lemma spectral_psi0_components a b :
  length (matvec (spectral a b) psi0) = 4%nat /\
  Cnorm2 (nth 0 (matvec (spectral a b) psi0) C0) = Cnorm2 a / 2 /\
  nth 3 (matvec (spectral a b) psi0) C0 = C0.
Proof.
  rewrite psi0_explicit. destruct a as [ar ai], b as [br bi].
  pose proof inv_sqrt2_sqr as Hs. unfold spectral. arrays.
  split; [reflexivity|]. split.
  - unfold Cnorm2. cparts.
    match goal with
    | |- ?l = ?r =>
        replace l with (2 * (/ sqrt 2 * / sqrt 2) * r)
          by (field; apply sqrt2_nonzero)
    end.
    rewrite Hs. field.
  - apply C_eq; cparts; ring.
Qed.

(** X5.  With a nonzero [hbar], every state of the trajectory has four
    components, the last of which is zero (both spins down is never
    reached), and the first has squared modulus 1/2. *)
Theorem both_down_never_reached (hbar : R) (i : nat) :
  hbar <> 0 -> (i < length time)%nat ->
  length (nth i (psiT hbar) []) = 4%nat /\
  nth 3 (nth i (psiT hbar) []) C0 = C0 /\
  Cnorm2 (nth 0 (nth i (psiT hbar) []) C0) = 1 / 2.
Proof.
  intros Hh Hi. rewrite (psiT_nth_closed hbar Hh i Hi). unfold state_at.
  destruct (spectral_psi0_components (cis (- phase (nth i time 0)))
              (cis (3 * phase (nth i time 0)))) as (Hl & Hn & Hz).
  rewrite Cnorm2_cis in Hn. auto.
Qed.

Lemma both_down_never_reached_witness :
  hbar_CODATA <> 0 /\ (64 < length time)%nat /\
  length (nth 64 (psiT hbar_CODATA) []) = 4%nat /\
  nth 3 (nth 64 (psiT hbar_CODATA) []) C0 = C0 /\
  Cnorm2 (nth 0 (nth 64 (psiT hbar_CODATA) []) C0) = 1 / 2.
Proof.
  assert (Hi : (64 < length time)%nat) by (apply index_in_grid; lia).
  split; [exact hbar_CODATA_nonzero|]. split; [exact Hi|].
  exact (both_down_never_reached hbar_CODATA 64 hbar_CODATA_nonzero Hi).
Defined.

(** ** The time grid *)






(** ** The plot *)

Lemma fold_plot_step l acc :
  fold_left plot_step l acc = acc ++ map add_of l.
Proof.
  revert acc. induction l as [|[[a b] c] l IH]; intros acc;
    cbn [fold_left map].
  - rewrite app_nil_r. reflexivity.
  - rewrite IH. cbn [plot_step add_of].
    rewrite <- app_assoc. reflexivity.
Qed.

Lemma length_zip3 {X : Type} (x y z : list X) :
  length (zip3 x y z) = Nat.min (length x) (Nat.min (length y) (length z)).
Proof.
  revert y z. induction x as [|a x IH]; intros [|b y] [|c z];
    cbn [zip3 length]; try rewrite IH; lia.
Qed.

Lemma nth_zip3 {X : Type} (x y z : list X) (d : X) k :
  (k < length (zip3 x y z))%nat ->
  nth k (zip3 x y z) (d, d, d) = (nth k x d, nth k y d, nth k z d).
Proof.
  revert y z k. induction x as [|a x IH]; intros [|b y] [|c z] k;
    cbn [zip3 length]; try lia.
  destruct k as [|k]; intros Hk; cbn [nth]; [reflexivity|].
  apply IH. lia.
Qed.

Lemma qubitPlots_map tm x y z :
  qubitPlots tm x y z =
  map add_of (zip3 x y z) ++ [Render; SetSizeInches [25; 5]; ShowBloch].
Proof. unfold qubitPlots. rewrite fold_plot_step. reflexivity. Qed.

(** X7.  [qubitPlots] adds one set of points for each triple that [zip]
    yields, so as many as the shortest of [x], [y] and [z] has entries
    (longer arguments are cut without an error, and [time] plays no
    part); then it renders once, sets the size to 25 by 5 and shows the
    figure, in this order and after all the points were added. *)
Theorem qubitPlots_calls (tm : list R) (x y z : list (list R)) :
  exists sets : list (list (list R)),
    qubitPlots tm x y z =
      map AddPoints sets ++ [Render; SetSizeInches [25; 5]; ShowBloch] /\
    length sets = Nat.min (length x) (Nat.min (length y) (length z)) /\
    Forall (fun s => length s = 3%nat) sets.
Proof.
  exists (map (fun p => let '(xi, yi, zi) := p in [xi; yi; zi]) (zip3 x y z)).
  rewrite qubitPlots_map, map_map, length_map, length_zip3.
  split; [|split; [reflexivity|]].
  - f_equal. apply map_ext. intros [[a b] c]. reflexivity.
  - apply Forall_map, Forall_forall. intros [[a b] c] _. reflexivity.
Qed.

(** X8.  The [k]-th call of [qubitPlots], for [k] below the three
    lengths, adds the points [[x[k], y[k], z[k]]]: the sets are added in
    the order of the arguments. *)
Theorem qubitPlots_kth (tm : list R) (x y z : list (list R)) (k : nat) :
  (k < Nat.min (length x) (Nat.min (length y) (length z)))%nat ->
  nth_error (qubitPlots tm x y z) k =
  Some (AddPoints [nth k x []; nth k y []; nth k z []]).
Proof.
  intros Hk. rewrite <- length_zip3 in Hk.
  rewrite qubitPlots_map, nth_error_app1 by (rewrite length_map; exact Hk).
  rewrite nth_error_map.
  rewrite (nth_error_nth' _ ([], [], []) Hk), (nth_zip3 x y z [] k Hk).
  reflexivity.
Qed.

Lemma qubitPlots_kth_witness :
  (1 < Nat.min (length [[1]; [2]; [3]])
         (Nat.min (length [[4]; [5]]) (length [[6]; [7]; [8]])))%nat /\
  nth_error (qubitPlots [] [[1]; [2]; [3]] [[4]; [5]] [[6]; [7]; [8]]) 1 =
  Some (AddPoints [[2]; [5]; [7]]).
Proof.
  assert (Hk : (1 < Nat.min (length [[1]; [2]; [3]])
                   (Nat.min (length [[4]; [5]])
                            (length [[6]; [7]; [8]])))%nat)
    by (cbn [length Nat.min]; lia).
  split; [exact Hk|].
  exact (qubitPlots_kth [] [[1]; [2]; [3]] [[4]; [5]] [[6]; [7]; [8]] 1 Hk).
Defined.

Lemma length_series sigma hbar :
  length (map (expect sigma) (psiT hbar)) = 101%nat.
Proof. rewrite length_map, length_psiT. apply length_time. Qed.

Lemma series_in_ball hbar sx sy sz :
  hbar <> 0 ->
  (forall t, bloch_norm2 (expect sx (state_at t)) (expect sy (state_at t))
                         (expect sz (state_at t)) <= 1) ->
  in_unit_ball 101 [map (expect sx) (psiT hbar); map (expect sy) (psiT hbar);
                    map (expect sz) (psiT hbar)].
Proof.
  intros Hh Hball. eexists _, _, _. split; [reflexivity|].
  rewrite !length_series. repeat (split; [reflexivity|]).
  intros i Hi. rewrite <- length_time in Hi.
  rewrite !(series_closed hbar _ i Hh Hi). apply Hball.
Qed.

(** X9.  With a nonzero [hbar], the last cell adds two sets of points,
    the three series of the first spin and then those of the second,
    before it renders; each set has three rows of 101 values and every
    point lies on or inside the unit sphere. *)
Theorem plotted_points_in_ball (hbar : R) :
  hbar <> 0 ->
  plot_cell hbar =
    [AddPoints [x1 hbar; y1 hbar; z1 hbar];
     AddPoints [x2 hbar; y2 hbar; z2 hbar];
     Render; SetSizeInches [25; 5]; ShowBloch] /\
  in_unit_ball 101 [x1 hbar; y1 hbar; z1 hbar] /\
  in_unit_ball 101 [x2 hbar; y2 hbar; z2 hbar].
Proof.
  intros Hh. split; [unfold plot_cell; rewrite qubitPlots_map; reflexivity|].
  unfold x1, y1, z1, x2, y2, z2.
  split; apply (series_in_ball hbar _ _ _ Hh); intros t;
    [rewrite (proj1 (bloch_norm2_state_at t))
    |rewrite (proj2 (bloch_norm2_state_at t))];
    pose proof (cos_sqr_le_1 (2 * PI * t)); lra.
Qed.

Lemma plotted_points_in_ball_witness :
  hbar_CODATA <> 0 /\
  in_unit_ball 101 [x1 hbar_CODATA; y1 hbar_CODATA; z1 hbar_CODATA] /\
  in_unit_ball 101 [x2 hbar_CODATA; y2 hbar_CODATA; z2 hbar_CODATA].
Proof.
  split; [exact hbar_CODATA_nonzero|].
  exact (proj2 (plotted_points_in_ball hbar_CODATA hbar_CODATA_nonzero)).
Defined.

(** ** The operators *)

(** X10.  Each of the six two-spin Pauli operators equals its conjugate
    transpose and is its own inverse: its square is the 4x4 identity. *)
Theorem paulis_hermitian_involutive :
  Forall (fun s => dagger s = s /\ matmul s s = meye 4) paulis.
Proof.
  unfold paulis.
  repeat constructor; arrays; entries; apply C_eq; cparts; ring.
Qed.

(** X11.  For all 2x2 matrices [A] and [B], the operator of [A] on the
    first spin times the operator of [B] on the second spin is
    [kron A B], in either order: operators of different spins commute. *)
Theorem kron_mixed_product (a b c d e f g h : C) :
  matmul (kron [[a; b]; [c; d]] identity) (kron identity [[e; f]; [g; h]]) =
    kron [[a; b]; [c; d]] [[e; f]; [g; h]] /\
  matmul (kron identity [[e; f]; [g; h]]) (kron [[a; b]; [c; d]] identity) =
    kron [[a; b]; [c; d]] [[e; f]; [g; h]].
Proof.
  destruct a, b, c, d, e, f, g, h.
  split; arrays; entries; apply C_eq; cparts; ring.
Qed.

(** X12.  The operators of one spin obey the Pauli relations:
    [X Y = i Z], [Y Z = i X], [Z X = i Y], and the products in the other
    order have the opposite sign. *)
Theorem pauli_relations :
  (matmul sigma1X sigma1Y = smul Ci sigma1Z /\
   matmul sigma1Y sigma1Z = smul Ci sigma1X /\
   matmul sigma1Z sigma1X = smul Ci sigma1Y) /\
  (matmul sigma2X sigma2Y = smul Ci sigma2Z /\
   matmul sigma2Y sigma2Z = smul Ci sigma2X /\
   matmul sigma2Z sigma2X = smul Ci sigma2Y) /\
  (matmul sigma1Y sigma1X = smul (Copp Ci) sigma1Z /\
   matmul sigma1Z sigma1Y = smul (Copp Ci) sigma1X /\
   matmul sigma1X sigma1Z = smul (Copp Ci) sigma1Y) /\
  (matmul sigma2Y sigma2X = smul (Copp Ci) sigma2Z /\
   matmul sigma2Z sigma2Y = smul (Copp Ci) sigma2X /\
   matmul sigma2X sigma2Z = smul (Copp Ci) sigma2Y).
Proof.
  repeat split; arrays; entries; apply C_eq; cparts; ring.
Qed.

(** X13.  The sum of products in the Hamiltonian is twice the exchange of
    the two spins minus the identity: applied to [kron(u, v)] it gives
    [2*kron(v, u) - kron(u, v)], for all one-spin states [u] and [v]. *)
Theorem exchange_swaps (u0 u1 v0 v1 : C) :
  matvec exchange (kron1 [u0; u1] [v0; v1]) =
  zipWith (fun s k => Cadd (Cmul (RtoC 2) s) (Copp k))
          (kron1 [v0; v1] [u0; u1]) (kron1 [u0; u1] [v0; v1]).
Proof.
  destruct u0, u1, v0, v1.
  arrays. entries; apply C_eq; cparts; ring.
Qed.

(** X14.  The Hamiltonian multiplies every state that is symmetric under
    the exchange of the spins by [J*hbar/4] and the antisymmetric state
    by [-3*J*hbar/4]. *)
Theorem H_spectrum (hbar : R) (v0 v1 v3 w : C) :
  matvec (H hbar) [v0; v1; v1; v3] =
    map (Cmul (RtoC (J * hbar / 4))) [v0; v1; v1; v3] /\
  matvec (H hbar) [C0; w; Copp w; C0] =
    map (Cmul (RtoC (-3 * (J * hbar / 4)))) [C0; w; Copp w; C0].
Proof.
  destruct v0, v1, v3, w. unfold H. rewrite exchange_explicit.
  unfold exchange_entries.
  split; arrays; entries; apply C_eq; cparts; ring.
Qed.

(** X15.  For each of the six operators and every state of four
    components, the imaginary part of [p.conj().T @ sigma @ p] is zero in
    exact arithmetic: what [.real] drops in the notebook is rounding
    only. *)
Theorem expectation_is_real :
  Forall (fun s => forall p0 p1 p2 p3 : C,
            im (dot (vecmat (vconj [p0; p1; p2; p3]) s) [p0; p1; p2; p3]) = 0)
         paulis.
Proof.
  unfold paulis.
  repeat constructor; intros [a0 b0] [a1 b1] [a2 b2] [a3 b3];
    arrays; cparts; ring.
Qed.

(** ** The propagator *)

Lemma spectral_unitary a b : Cnorm2 a = 1 -> Cnorm2 b = 1 ->
  matmul (dagger (spectral a b)) (spectral a b) = meye 4 /\
  matmul (spectral a b) (dagger (spectral a b)) = meye 4.
Proof.
  destruct a as [ar ai], b as [br bi]. unfold Cnorm2; cbn [re im].
  intros Ha Hb. unfold spectral.
  split; arrays; entries; apply C_eq; cparts; lra.
Qed.

Lemma cis_add x y : Cmul (cis x) (cis y) = cis (x + y).
Proof.
  apply C_eq; cbn [cis re im Cmul]; [rewrite cos_plus | rewrite sin_plus];
    ring.
Qed.

Lemma spectral_matvec_assoc a b a' b' v0 v1 v2 v3 :
  matvec (matmul (spectral a b) (spectral a' b')) [v0; v1; v2; v3] =
  matvec (spectral a b) (matvec (spectral a' b') [v0; v1; v2; v3]).
Proof.
  destruct a, b, a', b', v0, v1, v2, v3. unfold spectral.
  arrays. entries; apply C_eq; cparts; field.
Qed.

(** X16.  With a nonzero [hbar], the propagator [expm(-1j*H*t/hbar)] is
    unitary for every [t], and it keeps the norm of every state of four
    components, not only that of [psi0]. *)
Theorem propagator_unitary (hbar t : R) (v0 v1 v2 v3 : C) :
  hbar <> 0 ->
  matmul (dagger (expm (generator hbar t))) (expm (generator hbar t)) =
    meye 4 /\
  matmul (expm (generator hbar t)) (dagger (expm (generator hbar t))) =
    meye 4 /\
  norm (matvec (expm (generator hbar t)) [v0; v1; v2; v3]) =
    norm [v0; v1; v2; v3].
Proof.
  intros Hh. rewrite (propagator_closed hbar Hh t).
  destruct (spectral_unitary (cis (- phase t)) (cis (3 * phase t))
              (Cnorm2_cis _) (Cnorm2_cis _)) as [Hl Hr].
  split; [exact Hl|]. split; [exact Hr|].
  unfold norm. rewrite spectral_isometry by apply Cnorm2_cis. reflexivity.
Qed.

Lemma propagator_unitary_witness :
  hbar_CODATA <> 0 /\
  matmul (dagger (expm (generator hbar_CODATA 0.25)))
         (expm (generator hbar_CODATA 0.25)) = meye 4 /\
  matmul (expm (generator hbar_CODATA 0.25))
         (dagger (expm (generator hbar_CODATA 0.25))) = meye 4 /\
  norm (matvec (expm (generator hbar_CODATA 0.25)) [C0; C1; C0; C0]) =
    norm [C0; C1; C0; C0].
Proof.
  split; [exact hbar_CODATA_nonzero|].
  exact (propagator_unitary hbar_CODATA 0.25 C0 C1 C0 C0
           hbar_CODATA_nonzero).
Defined.

(** X17.  With a nonzero [hbar], the propagator of time 0 is the
    identity, and applied to [psi0] it gives [psi0] back. *)
Theorem propagator_at_zero (hbar : R) :
  hbar <> 0 ->
  expm (generator hbar 0) = meye 4 /\
  matvec (expm (generator hbar 0)) psi0 = psi0.
Proof.
  intros Hh. rewrite (propagator_closed hbar Hh 0).
  split; [|apply state_at_0].
  unfold phase. replace (- (J * 0 / 4)) with 0 by lra.
  replace (3 * (J * 0 / 4)) with 0 by lra.
  unfold cis. rewrite cos_0, sin_0. symmetry. apply spectral_one.
Qed.

Lemma propagator_at_zero_witness :
  hbar_CODATA <> 0 /\
  expm (generator hbar_CODATA 0) = meye 4 /\
  matvec (expm (generator hbar_CODATA 0)) psi0 = psi0.
Proof.
  split; [exact hbar_CODATA_nonzero|].
  exact (propagator_at_zero hbar_CODATA hbar_CODATA_nonzero).
Defined.

(** X18.  With a nonzero [hbar], propagators compose: the propagator of
    [s + t] is the product of those of [s] and [t], in either order; so
    the state the loop computes at [s + t] from [psi0] is the state at
    [t] propagated by [s]. *)
Theorem propagator_composes (hbar s t : R) :
  hbar <> 0 ->
  expm (generator hbar (s + t)) =
    matmul (expm (generator hbar s)) (expm (generator hbar t)) /\
  matmul (expm (generator hbar s)) (expm (generator hbar t)) =
    matmul (expm (generator hbar t)) (expm (generator hbar s)) /\
  matvec (expm (generator hbar (s + t))) psi0 =
    matvec (expm (generator hbar s)) (matvec (expm (generator hbar t)) psi0).
Proof.
  intros Hh. rewrite !(propagator_closed hbar Hh).
  assert (Hsum : spectral (cis (- phase (s + t))) (cis (3 * phase (s + t))) =
                 matmul (spectral (cis (- phase s)) (cis (3 * phase s)))
                        (spectral (cis (- phase t)) (cis (3 * phase t)))).
  { rewrite spectral_mul, !cis_add. f_equal; f_equal; unfold phase; field. }
  split; [exact Hsum|]. split.
  - rewrite !spectral_mul, !cis_add. f_equal; f_equal; ring.
  - rewrite Hsum, psi0_explicit. apply spectral_matvec_assoc.
Qed.

Lemma propagator_composes_witness :
  hbar_CODATA <> 0 /\
  expm (generator hbar_CODATA (0.2 + 0.3)) =
    matmul (expm (generator hbar_CODATA 0.2))
           (expm (generator hbar_CODATA 0.3)).
Proof.
  split; [exact hbar_CODATA_nonzero|].
  exact (proj1 (propagator_composes hbar_CODATA 0.2 0.3
                  hbar_CODATA_nonzero)).
Defined.

(** ** The joint state *)

Lemma norm2_app u v : norm2 (u ++ v) = norm2 u + norm2 v.
Proof.
  unfold norm2. induction u as [|x u IH]; cbn [app fold_right].
  - ring.
  - rewrite IH. ring.
Qed.

Lemma norm2_scaled x v : norm2 (map (Cmul x) v) = Cnorm2 x * norm2 v.
Proof.
  unfold norm2. induction v as [|y v IH]; cbn [map fold_right].
  - ring.
  - rewrite IH. unfold Cnorm2. cbn [re im Cmul]. ring.
Qed.

Lemma norm2_kron1 u v : norm2 (kron1 u v) = norm2 u * norm2 v.
Proof.
  unfold kron1. induction u as [|x u IH]; cbn [flat_map].
  - unfold norm2. cbn [fold_right]. ring.
  - rewrite norm2_app, norm2_scaled, IH.
    unfold norm2. cbn [fold_right]. ring.
Qed.

(** X19.  The squared norm of [np.kron(u, v)] is the product of the
    squared norms of [u] and [v], whatever their lengths; the two
    one-spin states of the notebook have norm 1, hence so has [psi0]. *)
Theorem kron1_norm2 (u v : vec) :
  norm2 (kron1 u v) = norm2 u * norm2 v /\
  norm2 psi1 = 1 /\ norm2 psi2 = 1.
Proof.
  pose proof inv_sqrt2_sqr as Hs.
  split; [apply norm2_kron1|].
  unfold psi1, psi2, vdivs, norm2, Cnorm2. cbn [map fold_right]. cparts.
  split; [ring|].
  match goal with
  | |- ?l = 1 =>
      replace l with (2 * (/ sqrt 2 * / sqrt 2))
        by (field; apply sqrt2_nonzero)
  end.
  rewrite Hs. field.
Qed.

(** ** The shape of the series *)

Lemma angle_in_grid i : (i < length time)%nat ->
  2 * PI * nth i time 0 = PI * (INR i / 100) /\ 0 <= INR i / 100 <= 1.
Proof.
  rewrite length_time. intros Hi. rewrite time_evenly_spaced by exact Hi.
  split; [replace 0.005 with (/ 200) by lra; field|].
  assert (H100 : INR 100 = 100)
    by (change 100 with (IZR (Z.of_nat 100)); apply INR_IZR_INZ).
  pose proof (pos_INR i) as H0.
  assert (Hle : INR i <= INR 100) by (apply le_INR; lia).
  lra.
Qed.

Lemma angle_bounds i : (i < length time)%nat ->
  0 <= 2 * PI * nth i time 0 <= PI.
Proof.
  intros Hi. destruct (angle_in_grid i Hi) as [-> [H0 H1]].
  pose proof PI_RGT_0. split; nra.
Qed.

Lemma time_mirror i : (i <= 100)%nat ->
  nth (100 - i) time 0 = 0.5 - nth i time 0.
Proof.
  intros Hi. rewrite !time_evenly_spaced by lia.
  rewrite minus_INR by exact Hi.
  replace (INR 100) with 100
    by (change 100 with (IZR (Z.of_nat 100)); symmetry; apply INR_IZR_INZ).
  lra.
Qed.

(** X20.  With a nonzero [hbar], the series of the two spins mirror each
    other in time: the first spin at sample [i] has the x and z values of
    the second spin at sample [100 - i], and the opposite y value. *)
Theorem spins_mirror_in_time (hbar : R) (i : nat) :
  hbar <> 0 -> (i <= 100)%nat ->
  nth i (x1 hbar) 0 = nth (100 - i) (x2 hbar) 0 /\
  nth i (y1 hbar) 0 = - nth (100 - i) (y2 hbar) 0 /\
  nth i (z1 hbar) 0 = nth (100 - i) (z2 hbar) 0.
Proof.
  intros Hh Hi.
  assert (Hi' : (i < length time)%nat) by (apply index_in_grid; lia).
  assert (Hm : (100 - i < length time)%nat) by (apply index_in_grid; lia).
  unfold x1, y1, z1, x2, y2, z2.
  rewrite !(series_closed hbar _ i Hh Hi'), !(series_closed hbar _ _ Hh Hm).
  rewrite (time_mirror i Hi).
  destruct (bloch_state_at (nth i time 0)) as (-> & -> & -> & _).
  destruct (bloch_state_at (0.5 - nth i time 0)) as (_ & _ & _ & -> & -> & ->).
  replace (2 * PI * (0.5 - nth i time 0))
    with (PI - 2 * PI * nth i time 0) by lra.
  rewrite Rtrigo_facts.cos_pi_minus, Rtrigo_facts.sin_pi_minus.
  repeat split; lra.
Qed.

Lemma spins_mirror_in_time_witness :
  hbar_CODATA <> 0 /\ (30 <= 100)%nat /\
  nth 30 (x1 hbar_CODATA) 0 = nth (100 - 30) (x2 hbar_CODATA) 0 /\
  nth 30 (y1 hbar_CODATA) 0 = - nth (100 - 30) (y2 hbar_CODATA) 0 /\
  nth 30 (z1 hbar_CODATA) 0 = nth (100 - 30) (z2 hbar_CODATA) 0.
Proof.
  assert (Hi : (30 <= 100)%nat) by lia.
  split; [exact hbar_CODATA_nonzero|]. split; [exact Hi|].
  exact (spins_mirror_in_time hbar_CODATA 30 hbar_CODATA_nonzero Hi).
Defined.

Lemma angle_interior k : (0 < k)%nat -> (k < 100)%nat ->
  0 < 2 * PI * nth k time 0 < PI.
Proof.
  intros H0 H1.
  assert (Hk : (k < length time)%nat) by (apply index_in_grid; lia).
  destruct (angle_in_grid k Hk) as [-> _].
  assert (H100 : INR 100 = 100)
    by (change 100 with (IZR (Z.of_nat 100)); apply INR_IZR_INZ).
  assert (Hlo : 0 < INR k) by (apply lt_0_INR; exact H0).
  assert (Hhi : INR k < INR 100) by (apply lt_INR; exact H1).
  pose proof PI_RGT_0. split; nra.
Qed.

(** X21.  With a nonzero [hbar], along the grid the z value of the first
    spin falls strictly and that of the second rises strictly; at every
    sample strictly between the first and the last the y value of the
    first spin is negative and that of the second positive. *)
Theorem z_monotone_y_signed (hbar : R) (i j k : nat) :
  hbar <> 0 -> (i < j)%nat -> (j < length time)%nat ->
  (0 < k)%nat -> (k < 100)%nat ->
  nth j (z1 hbar) 0 < nth i (z1 hbar) 0 /\
  nth i (z2 hbar) 0 < nth j (z2 hbar) 0 /\
  nth k (y1 hbar) 0 < 0 < nth k (y2 hbar) 0.
Proof.
  intros Hh Hij Hj Hk0 Hk1.
  assert (Hi : (i < length time)%nat) by lia.
  assert (Hk : (k < length time)%nat) by (apply index_in_grid; lia).
  unfold y1, z1, y2, z2.
  rewrite !(series_closed hbar _ i Hh Hi), !(series_closed hbar _ j Hh Hj),
          !(series_closed hbar _ k Hh Hk).
  destruct (bloch_state_at (nth i time 0)) as (_ & _ & -> & _ & _ & ->).
  destruct (bloch_state_at (nth j time 0)) as (_ & _ & -> & _ & _ & ->).
  destruct (bloch_state_at (nth k time 0)) as (_ & -> & _ & _ & -> & _).
  pose proof (angle_bounds i Hi) as [Hi0 Hi1].
  pose proof (angle_bounds j Hj) as [Hj0 Hj1].
  assert (Hlt : 2 * PI * nth i time 0 < 2 * PI * nth j time 0).
  { rewrite length_time in Hi, Hj.
    rewrite !time_evenly_spaced by assumption.
    pose proof PI_RGT_0. pose proof (lt_INR i j Hij). nra. }
  pose proof (cos_decreasing_1 _ _ Hi0 Hi1 Hj0 Hj1 Hlt) as Hcos.
  destruct (angle_interior k Hk0 Hk1) as [Hlo Hhi].
  pose proof (sin_gt_0 _ Hlo Hhi) as Hsin.
  repeat split; lra.
Qed.

Lemma z_monotone_y_signed_witness :
  hbar_CODATA <> 0 /\ (10 < 90)%nat /\ (90 < length time)%nat /\
  (0 < 99)%nat /\ (99 < 100)%nat /\
  nth 90 (z1 hbar_CODATA) 0 < nth 10 (z1 hbar_CODATA) 0 /\
  nth 10 (z2 hbar_CODATA) 0 < nth 90 (z2 hbar_CODATA) 0 /\
  nth 99 (y1 hbar_CODATA) 0 < 0 < nth 99 (y2 hbar_CODATA) 0.
Proof.
  assert (Hij : (10 < 90)%nat) by lia.
  assert (Hj : (90 < length time)%nat) by (apply index_in_grid; lia).
  assert (Hk0 : (0 < 99)%nat) by lia.
  assert (Hk1 : (99 < 100)%nat) by lia.
  split; [exact hbar_CODATA_nonzero|]. split; [exact Hij|].
  split; [exact Hj|]. split; [exact Hk0|]. split; [exact Hk1|].
  exact (z_monotone_y_signed hbar_CODATA 10 90 99 hbar_CODATA_nonzero
           Hij Hj Hk0 Hk1).
Defined.
